(** * Verification of the code-challenge repository

    The development embeds three parts of the repository:

    - [problem4/sum_to_n.ts]: three implementations of the sum 1 + ... + n;
    - [problem5]: the CRUD service [ResourceService] over the SQLite table
      [resources], in particular its dynamic [UPDATE] and its list query,
      with the controller and the routes in front of it;
    - [problem6/README.md]: the scoreboard design, whose code snippets
      (action validation, rate limiting, Redis leaderboard operations, the
      broadcast decision and the authentication middleware) are embedded
      over a small model of the Redis commands they call.

    The quantities of the programs are integers (counters, millisecond
    timestamps, ids, scores), modelled by [Z].  Where a program computes
    with doubles on values that can leave the range of the exact integers
    (the sums of [sum_to_n], the scores of the Redis sorted set), the
    rounding is part of the model ([JSNumber.round53]). *)

From Stdlib Require Import ZArith Lia List Permutation Sorted.
From stdpp Require Import gmap strings list fin_maps pretty sorting.
From Equations Require Import Equations.
Import ListNotations.

Local Open Scope Z_scope.

(* ===================================================================== *)
(** * JavaScript numbers                                                  *)
(* ===================================================================== *)

Module JSNumber.

(** A [number] is an IEEE 754 double, and so is the score of a member of
    a Redis sorted set.  The programs are run on integers; a double whose
    value is an integer is modelled by that integer, and an addition, a
    subtraction or a multiplication gives the double nearest to the exact
    result, ties going to the even significand ([round53]).  Every
    integer of magnitude up to 2^53 is a double; a greater double is a
    multiple of [2 ^ (log2 |x| - 52)].  The quantities considered are of
    magnitude below 2^500, so that no result reaches the overflow
    threshold 2^1024; [-0] is not told from [0]. *)
Definition round53 (x : Z) : Z :=
  let a := Z.abs x in
  if a <? 2 ^ 53 then x
  else
    let u := 2 ^ (Z.log2 a - 52) in
    let q := a / u in
    let r := a mod u in
    let q' := if 2 * r <? u then q
              else if u <? 2 * r then q + 1
              else if Z.even q then q else q + 1 in
    Z.sgn x * (q' * u).

(** The doubles of integer value. *)
Definition is_double (x : Z) : Prop := round53 x = x.

End JSNumber.

(* ===================================================================== *)
(** * Problem 4: sum_to_n                                                 *)
(* ===================================================================== *)

Module SumToN.
Import JSNumber.

(** How a call ends: it returns a number, it throws [RangeError: Maximum
    call stack size exceeded], or it never returns. *)
Inductive completion := Returns (v : Z) | RangeError | Diverges.

(** [n < 0 ? -sum : sum] on the completion of the computation of [sum]. *)
Definition signed (n : Z) (c : completion) : completion :=
  match c with
  | Returns sum => Returns (if n <? 0 then - sum else sum)
  | RangeError => RangeError
  | Diverges => Diverges
  end.

Definition opposite (c : completion) : completion :=
  match c with
  | Returns v => Returns (- v)
  | other => other
  end.

(** Implementation A, Gauss's formula.  The division by 2 of a double is
    exact (it changes the exponent only), and the numerator is an even
    integer ([numerator_even] below): the quotient is the integer [_ / 2]. *)
Definition sum_to_n_a (n : Z) : Z :=
  let absN := Z.abs n in
  let sum := round53 (absN * round53 (absN + 1)) / 2 in
  if n <? 0 then - sum else sum.

(** The loop [for (let i = 1; i <= absN; i++) sum += i] of implementation
    B, entered with the current values of [i] and [sum].  When [i++] leaves
    [i] as it is (at 2^53, where [i + 1] rounds to [i]) the condition stays
    true and the loop never ends. *)
Equations? for_loop_b (absN i sum : Z) : completion by wf (Z.to_nat (absN + 1 - i)) lt :=
  for_loop_b absN i sum with Z_le_dec i absN => {
    | right _ := Returns sum;
    | left _ with Z_lt_dec i (round53 (i + 1)) => {
        | left _ := for_loop_b absN (round53 (i + 1)) (round53 (sum + i));
        | right _ := Diverges } }.
Proof. lia. Qed.

Definition sum_to_n_b (n : Z) : completion :=
  let absN := Z.abs n in
  signed n (for_loop_b absN 1 0).

(** Implementation C, the recursion on [absN - 1].  Every call takes a
    frame of the call stack; [frames] is the number of frames the engine
    has left when the function is called, and the call that finds none
    throws [RangeError], which no caller catches. *)
Fixpoint sum_to_n_c (frames : nat) (n : Z) : completion :=
  match frames with
  | O => RangeError
  | S frames' =>
      let absN := Z.abs n in
      if absN =? 0 then Returns 0
      else
        match sum_to_n_c frames' (round53 (absN - 1)) with
        | Returns rest => signed n (Returns (round53 (absN + rest)))
        | other => other
        end
  end.

(** The closed form of the claim, in exact arithmetic. *)
Definition gauss (n : Z) : Z :=
  if n <? 0 then - (Z.abs n * (Z.abs n + 1) / 2) else n * (n + 1) / 2.

End SumToN.

(* ===================================================================== *)
(** * Problem 5: ResourceService over the table [resources]               *)
(* ===================================================================== *)

Module ResourceService.

(** A row of the table
    [resources(id, name NOT NULL, description, category, status,
    created_at, updated_at)].  A nullable column is an [option]; the two
    timestamps are the value of [CURRENT_TIMESTAMP], in seconds. *)
Record Resource := {
  id : Z;
  name : string;
  description : option string;
  category : option string;
  status : option string;
  created_at : Z;
  updated_at : Z
}.

(** [CreateResourceInput] and [UpdateResourceInput]: an optional property
    is [None] when it is [undefined]. *)
Record CreateResourceInput := {
  c_name : string;
  c_description : option string;
  c_category : option string;
  c_status : option string
}.

Record UpdateResourceInput := {
  u_name : option string;
  u_description : option string;
  u_category : option string;
  u_status : option string
}.

#[global] Instance UpdateResourceInput_eq_dec : EqDecision UpdateResourceInput.
Proof. solve_decision. Defined.

(** The assignments of a dynamic [UPDATE]: ["<column> = ?"] together with
    the parameter bound to it, and ["updated_at = CURRENT_TIMESTAMP"]. *)
Inductive column := col_name | col_description | col_category | col_status.

Inductive assignment :=
| set_param (c : column) (v : string)
| set_updated_at_now.

(** The statements the service sends to the database. *)
Inductive statement :=
| INSERT (name : string) (description category : option string) (status : string)
| SELECT (id : Z)
| UPDATE (set : list assignment) (id : Z)
| DELETE (id : Z).

Definition is_write (q : statement) : bool :=
  match q with SELECT _ => false | _ => true end.

(** The database: the rows by primary key, the AUTOINCREMENT counter and the
    journal of the statements executed so far, oldest first. *)
Record Database := {
  rows : gmap Z Resource;
  last_id : Z;
  journal : list statement
}.

Definition assign (now : Z) (r : Resource) (a : assignment) : Resource :=
  match a with
  | set_param col_name v =>
      {| id := id r; name := v; description := description r;
         category := category r; status := status r;
         created_at := created_at r; updated_at := updated_at r |}
  | set_param col_description v =>
      {| id := id r; name := name r; description := Some v;
         category := category r; status := status r;
         created_at := created_at r; updated_at := updated_at r |}
  | set_param col_category v =>
      {| id := id r; name := name r; description := description r;
         category := Some v; status := status r;
         created_at := created_at r; updated_at := updated_at r |}
  | set_param col_status v =>
      {| id := id r; name := name r; description := description r;
         category := category r; status := Some v;
         created_at := created_at r; updated_at := updated_at r |}
  | set_updated_at_now =>
      {| id := id r; name := name r; description := description r;
         category := category r; status := status r;
         created_at := created_at r; updated_at := now |}
  end.

(** [db.run]: a statement executed at time [now].  The result is the
    [RunResult] of sqlite3 ([lastID], [changes]) and the new database. *)
Definition run (now : Z) (q : statement) (db : Database) : (Z * Z) * Database :=
  match q with
  | INSERT n d c s =>
      let i := last_id db + 1 in
      ((i, 1),
       {| rows := <[i := {| id := i; name := n; description := d; category := c;
                            status := Some s; created_at := now; updated_at := now |}]> (rows db);
          last_id := i;
          journal := journal db ++ [q] |})
  | SELECT _ =>
      ((last_id db, 0),
       {| rows := rows db; last_id := last_id db; journal := journal db ++ [q] |})
  | UPDATE set i =>
      ((last_id db, if rows db !! i is Some _ then 1 else 0),
       {| rows := alter (fun r => foldl (assign now) r set) i (rows db);
          last_id := last_id db;
          journal := journal db ++ [q] |})
  | DELETE i =>
      ((last_id db, if rows db !! i is Some _ then 1 else 0),
       {| rows := delete i (rows db); last_id := last_id db;
          journal := journal db ++ [q] |})
  end.

(** [db.get] with [SELECT * FROM resources WHERE id = ?]: the row, if any. *)
Definition get (i : Z) (db : Database) : option Resource * Database :=
  (rows db !! i,
   {| rows := rows db; last_id := last_id db; journal := journal db ++ [SELECT i] |}).

(** [x || d] on an optional string: [undefined] and the empty string are
    falsy. *)
Definition or_else {A} (x : option string) (inj : string -> A) (d : A) : A :=
  match x with
  | Some s => if decide (s = EmptyString) then d else inj s
  | None => d
  end.

(** [getById] resolves with [row || null]. *)
Definition getById (i : Z) (db : Database) : option Resource * Database :=
  get i db.

(** [create]: the INSERT, then the SELECT of the row with [this.lastID]. *)
Definition create (now : Z) (resource : CreateResourceInput) (db : Database)
  : option Resource * Database :=
  let query :=
    INSERT (c_name resource)
           (or_else (c_description resource) Some None)
           (or_else (c_category resource) Some None)
           (or_else (c_status resource) (fun s => s) "active") in
  let '((lastID, _), db') := run now query db in
  get lastID db'.

(** The [fields] and [params] arrays of [update], built side by side: an
    entry is pushed for every property that is not [undefined]. *)
Definition push_if (c : column) (x : option string) (fields : list assignment)
  : list assignment :=
  match x with
  | Some v => fields ++ [set_param c v]
  | None => fields
  end.

Definition update_fields (resource : UpdateResourceInput) : list assignment :=
  push_if col_status (u_status resource)
    (push_if col_category (u_category resource)
      (push_if col_description (u_description resource)
        (push_if col_name (u_name resource) []))).

(** [update]: with no field to set, the current resource is returned and
    nothing is written; otherwise [updated_at = CURRENT_TIMESTAMP] is added,
    the UPDATE is run, and the row is read back. *)
Definition update (now : Z) (i : Z) (resource : UpdateResourceInput) (db : Database)
  : option Resource * Database :=
  let fields := update_fields resource in
  if decide (length fields = 0%nat) then getById i db
  else
    let fields := fields ++ [set_updated_at_now] in
    let '(_, db') := run now (UPDATE fields i) db in
    getById i db'.

(** [delete] resolves with [this.changes > 0]. *)
Definition delete_resource (i : Z) (db : Database) : bool * Database :=
  let '((_, changes), db') := run 0 (DELETE i) db in
  (bool_decide (changes > 0), db').

(** ** Notions used in the statements *)

(** The input of the test "should return current resource when no fields
    to update". *)
Definition no_fields : UpdateResourceInput :=
  {| u_name := None; u_description := None; u_category := None; u_status := None |}.

(** What a partial update leaves of a row: a supplied field takes the
    supplied value, any other field keeps its prior value. *)
Definition patched (inp : UpdateResourceInput) (r r' : Resource) : Prop :=
  id r' = id r /\
  created_at r' = created_at r /\
  name r' = default (name r) (u_name inp) /\
  description r' = from_option Some (description r) (u_description inp) /\
  category r' = from_option Some (category r) (u_category inp) /\
  status r' = from_option Some (status r) (u_status inp).

End ResourceService.

(* ===================================================================== *)
(** * Problem 6: the scoreboard design                                    *)
(* ===================================================================== *)

Module Scoreboard.
Import JSNumber.

(** ** The server's secrets

    [HMAC_SHA256] and the signing key of the README, and the server-side
    table that gives the score of an action type ([expectedScore]). *)
Class Config := {
  HMAC_SHA256 : string -> string -> string;
  secret_key : string;
  expectedScore : string -> Z
}.

(** ** Redis and the audit log *)

(** A string key holds a string or, after [INCR], an integer. *)
Inductive rvalue := VStr (s : string) | VInt (n : Z).

(** The commands the snippets send to Redis. *)
Inductive command :=
| EXISTS (key : string)
| SETEX (key : string) (seconds : Z) (value : string)
| INCR (key : string)
| EXPIRE (key : string) (seconds : Z)
| ZINCRBY (key : string) (increment : Z) (member : string)
| ZREVRANK (key member : string)
| ZREVRANGE (key : string) (start stop : Z).

(** An entry of the audit log ("Log all score changes"). *)
Record ScoreTransaction := {
  tx_userId : string;
  tx_actionId : string;
  tx_scoreAwarded : Z;
  tx_timestamp : Z
}.

(** The state the snippets run against.  [kv] holds the string keys with
    the instant (in milliseconds) at which they expire, if any; [zsets]
    holds the sorted sets, member by member; [commands] is the sequence of
    commands Redis has received, oldest first; [audit] is the audit log of
    the persistent database, oldest first. *)
Record World := {
  kv : gmap string (rvalue * option Z);
  zsets : gmap string (gmap string Z);
  commands : list command;
  audit : list ScoreTransaction
}.

Definition with_kv (f : gmap string (rvalue * option Z) -> gmap string (rvalue * option Z))
    (w : World) : World :=
  {| kv := f (kv w); zsets := zsets w; commands := commands w; audit := audit w |}.

Definition with_zsets (f : gmap string (gmap string Z) -> gmap string (gmap string Z))
    (w : World) : World :=
  {| kv := kv w; zsets := f (zsets w); commands := commands w; audit := audit w |}.

Definition received (c : command) (w : World) : World :=
  {| kv := kv w; zsets := zsets w; commands := commands w ++ [c]; audit := audit w |}.

Definition logged (tx : ScoreTransaction) (w : World) : World :=
  {| kv := kv w; zsets := zsets w; commands := commands w; audit := audit w ++ [tx] |}.

(** ** Computations: state and exceptions *)

Inductive exn := RateLimitError | RedisError.

Inductive outcome (A : Type) := Return (a : A) | Throw (e : exn).
Arguments Return {A} a.
Arguments Throw {A} e.

Definition M (A : Type) : Type := World -> outcome A * World.

Definition ret {A} (a : A) : M A := fun w => (Return a, w).

Definition throw {A} (e : exn) : M A := fun w => (Throw e, w).

Definition bind {A B} (m : M A) (k : A -> M B) : M B :=
  fun w =>
    match m w with
    | (Return a, w') => k a w'
    | (Throw e, w') => (Throw e, w')
    end.

Notation "'do' x <- m ; k" := (bind m (fun x => k))
  (at level 10, x name, m at level 100, k at level 200).
Notation "'do_' m ; k" := (bind m (fun _ => k))
  (at level 10, m at level 100, k at level 200).

(** ** The Redis commands

    Every command is executed at an instant [now] (milliseconds).  A key
    with an expiry instant exists up to and including that instant: Redis
    takes a key for expired when [now > when]. *)

Definition live (now : Z) (key : string) (w : World) : option rvalue :=
  match kv w !! key with
  | Some (v, Some deadline) => if now <=? deadline then Some v else None
  | Some (v, None) => Some v
  | None => None
  end.

Definition redis_exists (now : Z) (key : string) : M bool :=
  fun w => (Return (bool_decide (is_Some (live now key w))), received (EXISTS key) w).

Definition redis_setex (now : Z) (key : string) (seconds : Z) (value : string) : M unit :=
  fun w =>
    (Return tt,
     with_kv <[key := (VStr value, Some (now + seconds * 1000))]>
       (received (SETEX key seconds value) w)).

Definition redis_incr (now : Z) (key : string) : M Z :=
  fun w =>
    let w' := received (INCR key) w in
    match live now key w with
    | None => (Return 1, with_kv <[key := (VInt 1, None)]> w')
    | Some (VInt n) =>
        (Return (n + 1),
         with_kv <[key := (VInt (n + 1), kv w !! key ≫= snd)]> w')
    | Some (VStr _) => (Throw RedisError, w')
    end.

Definition redis_expire (now : Z) (key : string) (seconds : Z) : M bool :=
  fun w =>
    let w' := received (EXPIRE key seconds) w in
    match live now key w with
    | Some v => (Return true, with_kv <[key := (v, Some (now + seconds * 1000))]> w')
    | None => (Return false, w')
    end.

(** Remaining life of a key, as [PTTL] reports it. *)
Definition pttl (now : Z) (key : string) (w : World) : option Z :=
  match kv w !! key with
  | Some (_, Some deadline) => if now <=? deadline then Some (deadline - now) else None
  | _ => None
  end.

(** A sorted set orders its members by score and, at equal scores, by the
    bytes of the member; [ZREVRANGE] and [ZREVRANK] read it from the
    highest to the lowest.  [zrev_le x y]: [x] is read no later than [y]. *)
Definition zrev_le (x y : string * Z) : Prop :=
  y.2 < x.2 \/ (y.2 = x.2 /\ String.le y.1 x.1).

#[global] Instance zrev_le_dec : RelDecision zrev_le.
Proof. intros x y. unfold zrev_le. apply _. Defined.

(** The score of a member is a double: the sorted set, as Redis holds it,
    is read through [round53]. *)
Definition zset_of (key : string) (w : World) : gmap string Z :=
  round53 <$> default ∅ (zsets w !! key).

Definition zrev_list (z : gmap string Z) : list (string * Z) :=
  merge_sort zrev_le (map_to_list z).

(** Redis sends a member as it is and a score as a text: for a score of
    magnitude up to 2^53, the decimal numeral of the integer. *)
Inductive bulk := Member (m : string) | Score (s : Z).

(** [ZINCRBY] adds the increment, a double, to the score of the member (0
    when it is new) and replies with the new score. *)
Definition redis_zincrby (key : string) (increment : Z) (member : string) : M bulk :=
  fun w =>
    let z := zset_of key w in
    let score := round53 (default 0 (z !! member) + increment) in
    (Return (Score score),
     with_zsets <[key := <[member := score]> z]> (received (ZINCRBY key increment member) w)).

Definition redis_zrevrank (key member : string) : M (option Z) :=
  fun w =>
    (Return ((fun r => Z.of_nat r.1) <$>
               list_find (fun e => e.1 = member) (zrev_list (zset_of key w))),
     received (ZREVRANK key member) w).

(** The indices of a range: a negative index counts from the end. *)
Definition range_slice {A} (start stop : Z) (l : list A) : list A :=
  let n := Z.of_nat (length l) in
  let start := if start <? 0 then Z.max 0 (n + start) else start in
  let stop := if stop <? 0 then n + stop else Z.min stop (n - 1) in
  if stop <? start then [] else take (Z.to_nat (stop - start + 1)) (drop (Z.to_nat start) l).

(** The reply of [ZREVRANGE ... WITHSCORES] is flat: member, score,
    member, score, ... *)
Definition with_scores (l : list (string * Z)) : list bulk :=
  flat_map (fun e => [Member e.1; Score e.2]) l.

Definition redis_zrevrange_withscores (key : string) (start stop : Z) : M (list bulk) :=
  fun w =>
    (Return (with_scores (range_slice start stop (zrev_list (zset_of key w)))),
     received (ZREVRANGE key start stop) w).

(** ** Leaderboard operations ("Redis Operations") *)

Definition leaderboard_key : string := "leaderboard:global".

Record ScoreResult := { newScore : Z; newRank : option Z }.

(** [parseInt] of a reply: the integer a decimal numeral stands for. *)
Definition parseInt (b : bulk) : Z :=
  match b with Score s => s | Member _ => 0 end.

(** [updateUserScore]: the atomic increment, then the 0-based rank plus
    one ([null] when the member has no rank). *)
Definition updateUserScore (userId : string) (scoreToAdd : Z) : M ScoreResult :=
  do newScore <- redis_zincrby leaderboard_key scoreToAdd userId;
  do rank <- redis_zrevrank leaderboard_key userId;
  ret {| newScore := parseInt newScore; newRank := (fun r => r + 1) <$> rank |}.

Record Entry := { e_userId : string; e_score : Z; e_rank : Z }.

Definition member_of (b : bulk) : string :=
  match b with Member m => m | Score _ => EmptyString end.

(** The loop [for (let i = 0; i < leaderboard.length; i += 2)] of
    [getLeaderboard], entered at index [i] with the rest of the reply. *)
Fixpoint format_loop (i : Z) (leaderboard : list bulk) : list Entry :=
  match leaderboard with
  | m :: s :: rest =>
      {| e_userId := member_of m; e_score := parseInt s; e_rank := i / 2 + 1 |}
        :: format_loop (i + 2) rest
  | _ => []
  end.

Definition getLeaderboard (limit : Z) : M (list Entry) :=
  do leaderboard <- redis_zrevrange_withscores leaderboard_key 0 (limit - 1);
  ret (format_loop 0 leaderboard).

(** ** Action validation ("Action Signature Verification") *)

(** The body of [POST /scores/submit]; the user comes from the JWT. *)
Record Action := {
  actionId : string;
  actionType : string;
  timestamp : Z;
  signature : string
}.

Definition action_key (actionId : string) : string := "action:" +:+ actionId.

Definition expectedSignature `{Config} (userId : string) (a : Action) : string :=
  HMAC_SHA256 secret_key
    (actionId a +:+ userId +:+ actionType a +:+ pretty (timestamp a)).

Definition verifySignature (submittedSignature expectedSignature : string) : bool :=
  bool_decide (submittedSignature = expectedSignature).

(** The three constants the validation computes. *)
Record Checks := {
  isValidSignature : bool;
  isNotExpired : bool;
  isNotUsed : bool
}.

(** Modelled from the spec: the code that stands where the README has the
    comment [// Award score] is missing.  By the spec, ScoreLedger's
    [apply(userId, scoreAwarded, actionId)] makes the new total
    [scoreBefore + scoreAwarded] and records one transaction for the
    consumed token, [scoreAwarded] being the token's [expectedScore], taken
    from a server-side table keyed by the action type.  The total is kept
    where the README keeps it, in the sorted set, through
    [updateUserScore]. *)
Definition awardScore `{Config} (userId : string) (a : Action) (now : Z) : M ScoreResult :=
  let scoreAwarded := expectedScore (actionType a) in
  do result <- updateUserScore userId scoreAwarded;
  fun w =>
    (Return result,
     logged {| tx_userId := userId; tx_actionId := actionId a;
               tx_scoreAwarded := scoreAwarded; tx_timestamp := now |} w).

(** The validation up to its [await redis.exists(...)]: the three
    constants, each of them computed whatever the others are. *)
Definition validate_checks `{Config} (userId : string) (a : Action) (currentTime : Z)
  : M Checks :=
  let isValidSignature := verifySignature (signature a) (expectedSignature userId a) in
  let isNotExpired := bool_decide (currentTime - timestamp a < 600000) in
  do used <- redis_exists currentTime (action_key (actionId a));
  ret {| isValidSignature := isValidSignature;
         isNotExpired := isNotExpired;
         isNotUsed := negb used |}.

(** The validation from the [if] on: the award and the mark, at the
    instant [now] at which the continuation runs.  The result tells
    whether the score was awarded. *)
Definition validate_commit `{Config} (userId : string) (a : Action) (now : Z) (c : Checks)
  : M bool :=
  if isValidSignature c && isNotExpired c && isNotUsed c then
    do_ awardScore userId a now;
    do_ redis_setex now (action_key (actionId a)) 3600 "used";
    ret true
  else ret false.

(** One validation, run without interruption. *)
Definition validate `{Config} (userId : string) (a : Action) (currentTime : Z) : M bool :=
  do c <- validate_checks userId a currentTime;
  validate_commit userId a currentTime c.


(** Requests in flight.  Validations that run concurrently are interleaved
    at their [await]: a request is [Submitted], then [Awaiting] the reply of
    [EXISTS] with its constants computed, then [Finished]. *)
Inductive request :=
| Submitted (userId : string) (a : Action)
| Awaiting (userId : string) (a : Action) (c : Checks)
| Finished (awarded : bool)
| Failed (e : exn).

Definition step `{Config} (now : Z) (r : request) (w : World) : request * World :=
  match r with
  | Submitted userId a =>
      match validate_checks userId a now w with
      | (Return c, w') => (Awaiting userId a c, w')
      | (Throw e, w') => (Failed e, w')
      end
  | Awaiting userId a c =>
      match validate_commit userId a now c w with
      | (Return b, w') => (Finished b, w')
      | (Throw e, w') => (Failed e, w')
      end
  | Finished _ | Failed _ => (r, w)
  end.

(** A schedule names, step after step, the request that runs next and the
    instant at which it does. *)
Fixpoint run_schedule `{Config} (schedule : list (nat * Z)) (pool : list request) (w : World)
  : list request * World :=
  match schedule with
  | [] => (pool, w)
  | (i, now) :: rest =>
      match pool !! i with
      | Some r =>
          let '(r', w') := step now r w in
          run_schedule rest (<[i := r']> pool) w'
      | None => run_schedule rest pool w
      end
  end.

(** ** Rate limiting ("Rate Limiting") *)

Definition rate_limit_key (userId : string) : string := "rate_limit:" +:+ userId.

Definition rateLimit (userId : string) (now : Z) : M unit :=
  let key := rate_limit_key userId in
  do current <- redis_incr now key;
  do_ (if decide (current = 1) then do_ redis_expire now key 60; ret tt else ret tt);
  if decide (current > 10) then throw RateLimitError else ret tt.

(** A user's submissions at the instants [times], one after the other, with
    what each of them returned. *)
Fixpoint rateLimit_all (userId : string) (times : list Z) (w : World)
  : list (outcome unit) * World :=
  match times with
  | [] => ([], w)
  | now :: rest =>
      let '(r, w') := rateLimit userId now w in
      let '(rs, w'') := rateLimit_all userId rest w' in
      (r :: rs, w'')
  end.

(** ** Broadcast ([LeaderboardManager]) *)

(** A rank as [scoreData] holds it: a number; [null], which is what
    [updateUserScore] makes of a member without rank
    ([rank !== null ? rank + 1 : null]); or a value that is no number, such
    as [undefined] for a property that is not there or the text
    "unranked". *)
Inductive jsrank := RankNumber (r : Z) | RankNull | RankOther.

(** [rank <= k] in JavaScript: both sides are converted to numbers, [null]
    to 0 and [undefined] or a text that is no numeral to [NaN], with which
    every comparison is false. *)
Definition rank_le (rank : jsrank) (k : Z) : bool :=
  match rank with
  | RankNumber r => r <=? k
  | RankNull => 0 <=? k
  | RankOther => false
  end.

(** [scoreData], the payload of [score:update]. *)
Record ScoreData := {
  sd_userId : string;
  sd_newScore : Z;
  sd_newRank : jsrank;
  sd_previousRank : jsrank
}.

Inductive payload :=
| LEADERBOARD_REFRESH (leaderboard : list Entry)
| SCORE_CHANGED (data : ScoreData).

(** [io.to(room).emit(event, payload)]. *)
Record Emission := { room : string; event : string; sent : payload }.

Definition checkTopTenChanged (userId : string) (scoreData : ScoreData) : bool :=
  rank_le (sd_newRank scoreData) 10 || rank_le (sd_previousRank scoreData) 10.

Definition broadcastScoreUpdate (userId : string) (scoreData : ScoreData) : M Emission :=
  let topTenChanged := checkTopTenChanged userId scoreData in
  if topTenChanged then
    do leaderboard <- getLeaderboard 10;
    ret {| room := "leaderboard"; event := "leaderboard:update";
           sent := LEADERBOARD_REFRESH leaderboard |}
  else
    ret {| room := "leaderboard"; event := "score:update";
           sent := SCORE_CHANGED scoreData |}.

(** ** Notions used in the statements *)

Section ValidationNotions.
Context `{cfg : Config}.

Definition valid_signature (userId : string) (a : Action) : Prop :=
  verifySignature (signature a) (expectedSignature userId a) = true.

(** The constants the validation of [a] computes at [now] in [w]. *)
Definition checks_at (userId : string) (a : Action) (now : Z) (w : World) : Checks :=
  {| isValidSignature := verifySignature (signature a) (expectedSignature userId a);
     isNotExpired := bool_decide (now - timestamp a < 600000);
     isNotUsed := negb (bool_decide (is_Some (live now (action_key (actionId a)) w))) |}.

Definition passes (c : Checks) : bool :=
  isValidSignature c && isNotExpired c && isNotUsed c.

Definition tx_of (userId : string) (a : Action) (now : Z) : ScoreTransaction :=
  {| tx_userId := userId; tx_actionId := actionId a;
     tx_scoreAwarded := expectedScore (actionType a); tx_timestamp := now |}.




End ValidationNotions.

(** [ZSCORE] of a user in the leaderboard, 0 for a user without a score. *)
Definition totalScore (userId : string) (w : World) : Z :=
  default 0 (zset_of leaderboard_key w !! userId).

(** A sequence of [updateUserScore] calls in their order of arrival. *)
Fixpoint apply_all (calls : list (string * Z)) (w : World) : World :=
  match calls with
  | [] => w
  | (userId, scoreToAdd) :: rest => apply_all rest (updateUserScore userId scoreToAdd w).2
  end.

Fixpoint sum_awarded (userId : string) (calls : list (string * Z)) : Z :=
  match calls with
  | [] => 0
  | (u, scoreToAdd) :: rest =>
      (if decide (u = userId) then scoreToAdd else 0) + sum_awarded userId rest
  end.

(** The scores added for a user, in magnitude. *)
Fixpoint sum_magnitude (userId : string) (calls : list (string * Z)) : Z :=
  match calls with
  | [] => 0
  | (u, scoreToAdd) :: rest =>
      (if decide (u = userId) then Z.abs scoreToAdd else 0) + sum_magnitude userId rest
  end.

(** The sums that the calls can form from the scores of [w], in whatever
    order they arrive, are integers of magnitude up to 2^53: they are
    doubles, and no addition rounds. *)
Definition exact_sums (calls : list (string * Z)) (w : World) : Prop :=
  forall userId, Z.abs (totalScore userId w) + sum_magnitude userId calls <= 2 ^ 53.


(** The entries [getLeaderboard] makes of a list of members with scores,
    the first of them getting rank [k + 1]. *)
Fixpoint ranked (k : Z) (l : list (string * Z)) : list Entry :=
  match l with
  | [] => []
  | e :: rest => {| e_userId := e.1; e_score := e.2; e_rank := k + 1 |} :: ranked (k + 1) rest
  end.



(** Computations that leave the leaderboard and the audit log alone. *)
Definition ledger_frame {A} (m : M A) : Prop :=
  forall w, zsets (m w).2 = zsets w /\ audit (m w).2 = audit w.

(** What the [n + 1]st, [n + 2]nd, ... submissions of a window return. *)
Fixpoint window_results (n : Z) (times : list Z) : list (outcome unit) :=
  match times with
  | [] => []
  | _ :: rest =>
      (if decide (n + 1 > 10) then Throw RateLimitError else Return tt)
        :: window_results (n + 1) rest
  end.

(** ** Examples *)

Definition demo_config : Config :=
  {| HMAC_SHA256 := fun key msg => key +:+ "|" +:+ msg;
     secret_key := "s3cret";
     expectedScore := fun _ => 100 |}.

Definition empty_world : World :=
  {| kv := ∅; zsets := ∅; commands := []; audit := [] |}.

(** A token issued to alice at instant 0 and signed by the server; it
    expires at instant 600000. *)
Definition demo_token : Action :=
  {| actionId := "a1"; actionType := "COMPLETE_QUEST"; timestamp := 0;
     signature := "s3cret|a1aliceCOMPLETE_QUEST0" |}.


(** The same token with a signature the server did not compute. *)
Definition forged_token : Action :=
  {| actionId := "a1"; actionType := "COMPLETE_QUEST"; timestamp := 0;
     signature := "forged" |}.

Definition eleven_users : list (string * Z) :=
  [("u01", 110); ("u02", 100); ("u03", 90); ("u04", 80); ("u05", 70); ("u06", 60);
   ("u07", 50); ("u08", 40); ("u09", 30); ("u10", 20); ("u11", 10)].

End Scoreboard.

(* ===================================================================== *)
(** * Problem 5: the list query and the controller                        *)
(* ===================================================================== *)

Module ResourceList.
Import Stdlib.Strings.Ascii.
Import ResourceService.

(** [ResourceFilter]: an optional property is [None] when it is
    [undefined]. *)
Record ResourceFilter := {
  f_category : option string;
  f_status : option string;
  f_name : option string
}.

(** The conditions [list] appends to [WHERE 1=1], each with the parameter
    bound to it. *)
Inductive condition :=
| category_eq (v : string)
| status_eq (v : string)
| name_like (pattern : string).

(** [if (filters?.x)]: the property is there and is not the empty string. *)
Definition truthy (x : option string) : option string :=
  match x with
  | Some s => if decide (s = EmptyString) then None else Some s
  | None => None
  end.

Definition push_condition (c : string -> condition) (x : option string)
    (query : list condition) : list condition :=
  match truthy x with
  | Some v => query ++ [c v]
  | None => query
  end.

(** The query [list] builds: the name is wrapped in two [%]. *)
Definition list_query (filters : option ResourceFilter) : list condition :=
  match filters with
  | None => []
  | Some f =>
      push_condition (fun n => name_like ("%" +:+ n +:+ "%")) (f_name f)
        (push_condition status_eq (f_status f)
          (push_condition category_eq (f_category f) []))
  end.

(** ASCII letters compare without case in [LIKE]. *)
Definition lower (c : Ascii.ascii) : Ascii.ascii :=
  let n := Ascii.nat_of_ascii c in
  if ((65 <=? n) && (n <=? 90))%nat then Ascii.ascii_of_nat (n + 32) else c.

(** Text is UTF-8.  A byte from 0xC0 on begins a character of several
    bytes; the bytes 0x80 to 0xBF continue one. *)
Definition leading (c : Ascii.ascii) : bool := (192 <=? Ascii.nat_of_ascii c)%nat.

Definition continuation (c : Ascii.ascii) : bool :=
  let n := Ascii.nat_of_ascii c in ((128 <=? n) && (n <? 192))%nat.

Fixpoint skip_continuation (s : string) : string :=
  match s with
  | String c s' => if continuation c then skip_continuation s' else s
  | EmptyString => s
  end.

(** The text after its first character, as SQLite's [sqlite3Utf8Read]
    steps over it: a byte below 0xC0 alone, or a byte from 0xC0 on with
    the continuation bytes that follow it. *)
Definition next_char (s : string) : option string :=
  match s with
  | EmptyString => None
  | String c s' => Some (if leading c then skip_continuation s' else s')
  end.

(** SQLite's [LIKE] without [ESCAPE], after its [patternCompare]: [%]
    stands for any sequence of characters, [_] for any one character, any
    other character for itself up to the case of ASCII letters.  After a
    [%] (then [seenAll] holds) the [%] and [_] that follow are taken in,
    each [_] stepping over one character of the text, and the text is
    searched for the next character of the pattern.  Characters other
    than [_] are compared byte by byte, which on UTF-8 text compares the
    characters.  The pattern and the text are C strings there; they are
    taken here without the byte 0. *)
Fixpoint patternCompare (seenAll : bool) (pattern : string) : string -> bool :=
  match pattern with
  | EmptyString => fun s => seenAll || bool_decide (s = EmptyString)
  | String p pattern' =>
      if decide (p = "%"%char) then patternCompare true pattern'
      else if decide (p = "_"%char) then
        fun s =>
          match next_char s with
          | Some s' => patternCompare seenAll pattern' s'
          | None => false
          end
      else if seenAll then
        fix search (s : string) : bool :=
          match s with
          | EmptyString => false
          | String c s' =>
              bool_decide (lower p = lower c) && patternCompare false pattern' s'
              || search s'
          end
      else
        fun s =>
          match s with
          | EmptyString => false
          | String c s' => bool_decide (lower p = lower c) && patternCompare false pattern' s'
          end
  end.

Definition like (pattern : string) (s : string) : bool := patternCompare false pattern s.

(** A text with its ASCII letters in lower case, and the texts without
    the two wildcards. *)
Fixpoint lower_string (s : string) : string :=
  match s with
  | EmptyString => EmptyString
  | String c s' => String (lower c) (lower_string s')
  end.

Fixpoint no_wildcard (s : string) : bool :=
  match s with
  | EmptyString => true
  | String c s' =>
      negb (bool_decide (c = "%"%char)) && negb (bool_decide (c = "_"%char)) && no_wildcard s'
  end.

(** A row satisfies a condition; [NULL = ?] is never true. *)
Definition satisfies (r : Resource) (c : condition) : bool :=
  match c with
  | category_eq v => bool_decide (category r = Some v)
  | status_eq v => bool_decide (status r = Some v)
  | name_like pattern => like pattern (name r)
  end.

(** [ORDER BY created_at DESC]: [newer_first r1 r2] lets [r1] come before
    [r2]. *)
Definition newer_first (r1 r2 : Resource) : Prop := created_at r2 <= created_at r1.

#[global] Instance newer_first_dec : RelDecision newer_first.
Proof. intros r1 r2. unfold newer_first. apply _. Defined.

(** The order in which SQLite hands out the rows: the query asks for the
    newest first, and rows of one [created_at] stay in the order of the
    scan of the table, which is that of their rowid. *)
Definition listed_before (x y : Z * Resource) : Prop :=
  created_at y.2 < created_at x.2 \/ (created_at y.2 = created_at x.2 /\ x.1 <= y.1).

#[global] Instance listed_before_dec : RelDecision listed_before.
Proof. intros x y. unfold listed_before. apply _. Defined.

(** What the filters ask of a row, property by property. *)
Definition matches (filters : option ResourceFilter) (r : Resource) : Prop :=
  match filters with
  | None => True
  | Some f =>
      (forall c, truthy (f_category f) = Some c -> category r = Some c) /\
      (forall s, truthy (f_status f) = Some s -> status r = Some s) /\
      (forall n, truthy (f_name f) = Some n -> like ("%" +:+ n +:+ "%") (name r) = true)
  end.

(** [list]: the rows that satisfy every condition, in the order of
    [listed_before]; [db.all] only reads, and the result is all that is
    modelled of it. *)
Definition list (filters : option ResourceFilter) (db : Database) : list Resource :=
  snd <$> merge_sort listed_before
            (filter (fun x => forallb (satisfies x.2) (list_query filters))
                    (map_to_list (rows db))).

End ResourceList.

Module ResourceController.
Import ResourceService.

(** The body of a request [POST /api/v1/resources]: every property may be
    missing. *)
Record CreateBody := {
  b_name : option string;
  b_description : option string;
  b_category : option string;
  b_status : option string
}.

(** The JSON bodies the controller sends. *)
Inductive Body :=
| error_body (error : string)
| resource_body (data : option Resource) (message : option string)
| list_body (data : Datatypes.list Resource) (count : Z)
| message_body (message : string).

Record Response := { code : Z; body : Body }.

Section Controller.

(** [parseInt] (its result is [None] when it is [NaN]) and
    [String.prototype.trim], the two built-ins the controller calls. *)
Variable parseInt : string -> option Z.
Variable trim : string -> string.

(** The names the basic validation refuses: missing, empty, or empty once
    trimmed. *)
Definition blank_name (resourceData : CreateBody) : Prop :=
  match b_name resourceData with
  | None => True
  | Some n => n = EmptyString \/ trim n = EmptyString
  end.

(** [create]: the basic validation, then the service. *)
Definition create (now : Z) (resourceData : CreateBody) (db : Database)
  : Response * Database :=
  match b_name resourceData with
  | None => ({| code := 400; body := error_body "Name is required" |}, db)
  | Some n =>
      if bool_decide (n = EmptyString) || bool_decide (trim n = EmptyString) then
        ({| code := 400; body := error_body "Name is required" |}, db)
      else
        let '(resource, db') :=
          ResourceService.create now
            {| c_name := n; c_description := b_description resourceData;
               c_category := b_category resourceData; c_status := b_status resourceData |}
            db in
        ({| code := 201;
            body := resource_body resource (Some "Resource created successfully") |}, db')
  end.

(** [list]: the filters of the query string, without the undefined ones. *)
Definition list (category status name : option string) (db : Database)
  : Response * Database :=
  let filters :=
    {| ResourceList.f_category := category; ResourceList.f_status := status;
       ResourceList.f_name := name |} in
  let resources := ResourceList.list (Some filters) db in
  ({| code := 200; body := list_body resources (Z.of_nat (length resources)) |}, db).

Definition getById (id : string) (db : Database) : Response * Database :=
  match parseInt id with
  | None => ({| code := 400; body := error_body "Invalid resource ID" |}, db)
  | Some i =>
      match ResourceService.getById i db with
      | (None, db') => ({| code := 404; body := error_body "Resource not found" |}, db')
      | (Some resource, db') =>
          ({| code := 200; body := resource_body (Some resource) None |}, db')
      end
  end.

Definition update (now : Z) (id : string) (updateData : UpdateResourceInput) (db : Database)
  : Response * Database :=
  match parseInt id with
  | None => ({| code := 400; body := error_body "Invalid resource ID" |}, db)
  | Some i =>
      match ResourceService.getById i db with
      | (None, db') => ({| code := 404; body := error_body "Resource not found" |}, db')
      | (Some existingResource, db') =>
          let '(updatedResource, db'') := ResourceService.update now i updateData db' in
          ({| code := 200;
              body := resource_body updatedResource (Some "Resource updated successfully") |},
           db'')
      end
  end.

Definition delete (id : string) (db : Database) : Response * Database :=
  match parseInt id with
  | None => ({| code := 400; body := error_body "Invalid resource ID" |}, db)
  | Some i =>
      match ResourceService.delete_resource i db with
      | (false, db') => ({| code := 404; body := error_body "Resource not found" |}, db')
      | (true, db') =>
          ({| code := 200; body := message_body "Resource deleted successfully" |}, db')
      end
  end.

End Controller.

(** A request to the resource routes and its dispatch to the controller. *)
Inductive Request :=
| POST (resourceData : CreateBody)
| GET_list (category status name : option string)
| GET (id : string)
| PUT (id : string) (updateData : UpdateResourceInput)
| DELETE_ (id : string).

Definition route (parseInt : string -> option Z) (trim : string -> string)
    (now : Z) (req : Request) (db : Database) : Response * Database :=
  match req with
  | POST resourceData => create trim now resourceData db
  | GET_list category status name => list category status name db
  | GET id => getById parseInt id db
  | PUT id updateData => update parseInt now id updateData db
  | DELETE_ id => delete parseInt id db
  end.

(** Two update inputs as one: a property of the second, when supplied,
    overrides that of the first. *)
Definition merge_input (first second : UpdateResourceInput) : UpdateResourceInput :=
  {| u_name := from_option Some (u_name first) (u_name second);
     u_description := from_option Some (u_description first) (u_description second);
     u_category := from_option Some (u_category first) (u_category second);
     u_status := from_option Some (u_status first) (u_status second) |}.

(** The row an UPDATE built from [resource] makes of [r] at [now]. *)
Definition updated_row (now : Z) (resource : UpdateResourceInput) (r : Resource) : Resource :=
  {| id := id r;
     name := default (name r) (u_name resource);
     description := from_option Some (description r) (u_description resource);
     category := from_option Some (category r) (u_category resource);
     status := from_option Some (status r) (u_status resource);
     created_at := created_at r;
     updated_at := now |}.

(** The well-formed databases: a row is stored under its own [id], and no
    [id] exceeds the AUTOINCREMENT counter. *)
Definition well_formed (db : Database) : Prop :=
  0 <= last_id db /\
  forall i r, rows db !! i = Some r -> id r = i /\ 0 < i <= last_id db.

Definition empty_database : Database :=
  {| rows := ∅; last_id := 0; journal := [] |}.

(** Stand-ins for [parseInt] and [trim] on the inputs of the examples. *)
Definition demo_parseInt (s : string) : option Z :=
  if decide (s = "1") then Some 1
  else if decide (s = "99999") then Some 99999
  else None.

Definition demo_trim (s : string) : string :=
  if decide (s = "   ") then EmptyString else s.

(** The database of the test suites' [beforeEach]: one resource. *)
Definition seeded : Database :=
  (ResourceService.create 5
     {| c_name := "Original Name"; c_description := Some "Original Description";
        c_category := Some "original"; c_status := Some "active" |}
     empty_database).2.

(** The requests served one after the other, each at its instant. *)
Fixpoint serve (parseInt : string -> option Z) (trim : string -> string)
    (reqs : Datatypes.list (Z * Request)) (db : Database)
  : Datatypes.list Response * Database :=
  match reqs with
  | [] => ([], db)
  | (now, req) :: rest =>
      let '(res, db') := route parseInt trim now req db in
      let '(ress, db'') := serve parseInt trim rest db' in
      (res :: ress, db'')
  end.

End ResourceController.

(* ===================================================================== *)
(** * Problem 6: the authentication middleware                            *)
(* ===================================================================== *)

Module AuthMiddleware.
Import Stdlib.Strings.Ascii.

(** [s.split(' ')]: the pieces of [s] between its spaces. *)
Fixpoint split_space (s : string) : list string :=
  match s with
  | EmptyString => [EmptyString]
  | String c s' =>
      if decide (c = " "%char) then EmptyString :: split_space s'
      else
        match split_space s' with
        | piece :: pieces => String c piece :: pieces
        | [] => [String c EmptyString]
        end
  end.

(** The texts without a space. *)
Fixpoint no_space (s : string) : bool :=
  match s with
  | EmptyString => true
  | String c s' => negb (bool_decide (c = " "%char)) && no_space s'
  end.

Section Middleware.

(** [jwt.verify(token, JWT_SECRET)] gives the decoded payload, or throws
    ([None]). *)
Variable Payload : Type.
Variable jwt_verify : string -> string -> option Payload.
Variable JWT_SECRET : string.

(** What the middleware does with a request: it calls [next()] with
    [req.user] set, or it answers with a status and an error. *)
Inductive outcome :=
| next (user : Payload)
| respond (status : Z) (error : string).

Definition authMiddleware (authorization : option string) : outcome :=
  let token := authorization ≫= (fun header => split_space header !! 1%nat) in
  match token with
  | None => respond 401 "Unauthorized"
  | Some t =>
      if decide (t = EmptyString) then respond 401 "Unauthorized"
      else
        match jwt_verify t JWT_SECRET with
        | Some decoded => next decoded
        | None => respond 401 "Invalid token"
        end
  end.

End Middleware.

End AuthMiddleware.

(* ===================================================================== *)
(** * Part II: properties                                                 *)
(* ===================================================================== *)

Module JSNumberFacts.
Import JSNumber.

Lemma sgn_abs (x : Z) : Z.sgn x * Z.abs x = x.
Proof. destruct x; reflexivity. Qed.

Lemma round53_small (x : Z) : Z.abs x < 2 ^ 53 -> round53 x = x.
Proof.
  intros H. unfold round53.
  destruct (Z.ltb_spec (Z.abs x) (2 ^ 53)); [reflexivity | lia].
Qed.

Lemma round53_opp (x : Z) : round53 (- x) = - round53 x.
Proof.
  unfold round53. rewrite Z.abs_opp, Z.sgn_opp.
  destruct (Z.abs x <? 2 ^ 53); [reflexivity | ring].
Qed.

(** The shape of a large rounding: for [a >= 2^53], with [u] the unit in
    the last place, the result is [q * u] or [(q + 1) * u], [q] being the
    quotient of [a] by [u]. *)
Lemma round53_shape (a : Z) :
  2 ^ 53 <= a ->
  let u := 2 ^ (Z.log2 a - 52) in
  2 <= u /\ 2 ^ 52 * u <= a < 2 ^ 53 * u /\
  (round53 a = (a / u) * u \/ (round53 a = (a / u + 1) * u /\ a mod u <> 0)).
Proof.
  intros Ha u.
  assert (Hl : 53 <= Z.log2 a) by (apply Z.log2_le_pow2; lia).
  assert (Hu : 2 <= u).
  { unfold u. change 2 with (2 ^ 1) at 1. apply Z.pow_le_mono_r; lia. }
  assert (Hspec : 2 ^ Z.log2 a <= a < 2 ^ Z.succ (Z.log2 a)) by (apply Z.log2_spec; lia).
  assert (H52 : 2 ^ 52 * u = 2 ^ Z.log2 a).
  { unfold u. rewrite <- Z.pow_add_r by lia. f_equal. lia. }
  assert (H53 : 2 ^ 53 * u = 2 ^ Z.succ (Z.log2 a)).
  { unfold u. rewrite <- Z.pow_add_r by lia. f_equal. lia. }
  split; [exact Hu |]. split; [lia |].
  unfold round53. rewrite (Z.abs_eq a) by lia.
  destruct (Z.ltb_spec a (2 ^ 53)); [lia |].
  fold u. replace (Z.sgn a) with 1 by (symmetry; apply Z.sgn_pos; lia).
  rewrite Z.mul_1_l.
  pose proof (Z.mod_pos_bound a u ltac:(lia)) as Hr.
  destruct (2 * (a mod u) <? u) eqn:E1; [now left |].
  apply Z.ltb_ge in E1.
  destruct (u <? 2 * (a mod u)); [right; split; [reflexivity | lia] |].
  destruct (Z.even (a / u)); [now left | right; split; [reflexivity | lia]].
Qed.

Lemma double_large_multiple (d : Z) :
  2 ^ 53 <= d -> is_double d -> d mod 2 ^ (Z.log2 d - 52) = 0.
Proof.
  intros Hd Hdd. destruct (round53_shape d Hd) as (Hu & Hb & Hs).
  set (u := 2 ^ (Z.log2 d - 52)) in *.
  pose proof (Z.div_mod d u ltac:(lia)) as Hdm.
  pose proof (Z.mod_pos_bound d u ltac:(lia)) as Hr.
  unfold is_double in Hdd. rewrite Hdd in Hs.
  destruct Hs as [Hs | [Hs Hne]]; nia.
Qed.

Lemma round53_lower_pos (d y : Z) :
  0 <= d -> is_double d -> d <= y -> d <= round53 y.
Proof.
  intros Hd0 Hdd Hdy.
  destruct (Z.lt_ge_cases y (2 ^ 53)) as [Hy | Hy].
  - rewrite round53_small by lia. exact Hdy.
  - destruct (round53_shape y Hy) as (Hu & Hb & Hs).
    set (u := 2 ^ (Z.log2 y - 52)) in *.
    pose proof (Z.div_mod y u ltac:(lia)) as Hdm.
    pose proof (Z.mod_pos_bound y u ltac:(lia)) as Hr.
    assert (Hq : 2 ^ 52 <= y / u) by (apply Z.div_le_lower_bound; lia).
    enough (d <= y / u * u) by (destruct Hs as [-> | [-> _]]; lia).
    destruct (Z.lt_ge_cases d (2 ^ 53)) as [Hds | Hdl].
    + change (2 ^ 53) with (2 ^ 52 * 2) in Hds. nia.
    + pose proof (double_large_multiple d Hdl Hdd) as Hm.
      assert (Hlog : Z.log2 d <= Z.log2 y) by (apply Z.log2_le_mono; lia).
      destruct (Z.eq_dec (Z.log2 d) (Z.log2 y)) as [He | Hne].
      * rewrite He in Hm. fold u in Hm.
        pose proof (Z.div_mod d u ltac:(lia)) as Hdd'. rewrite Hm in Hdd'.
        assert (d / u <= y / u) by (apply Z.div_le_mono; lia). nia.
      * assert (Hlt : d < 2 ^ Z.log2 y).
        { apply Z.log2_lt_pow2; lia. }
        assert (H52 : 2 ^ 52 * u = 2 ^ Z.log2 y).
        { unfold u. rewrite <- Z.pow_add_r; [f_equal; lia | lia |].
          assert (53 <= Z.log2 y) by (apply Z.log2_le_pow2; lia). lia. }
        nia.
Qed.

Lemma round53_upper_pos (d y : Z) :
  0 <= y -> is_double d -> y <= d -> round53 y <= d.
Proof.
  intros Hy0 Hdd Hyd.
  destruct (Z.lt_ge_cases y (2 ^ 53)) as [Hy | Hy].
  - rewrite round53_small by lia. exact Hyd.
  - destruct (round53_shape y Hy) as (Hu & Hb & Hs).
    set (u := 2 ^ (Z.log2 y - 52)) in *.
    pose proof (Z.div_mod y u ltac:(lia)) as Hdm.
    pose proof (Z.mod_pos_bound y u ltac:(lia)) as Hr.
    assert (Hq : y / u < 2 ^ 53) by (apply Z.div_lt_upper_bound; lia).
    destruct Hs as [-> | [-> Hne]]; [nia |].
    assert (Hdl : 2 ^ 53 <= d) by lia.
    pose proof (double_large_multiple d Hdl Hdd) as Hm.
    assert (Hlog : Z.log2 y <= Z.log2 d) by (apply Z.log2_le_mono; lia).
    destruct (Z.eq_dec (Z.log2 d) (Z.log2 y)) as [He | Hne'].
    + rewrite He in Hm. fold u in Hm.
      pose proof (Z.div_mod d u ltac:(lia)) as Hdd'. rewrite Hm in Hdd'.
      assert (y / u <= d / u) by (apply Z.div_le_mono; lia).
      assert (y / u <> d / u) by nia. nia.
    + assert (Hge : 2 ^ Z.succ (Z.log2 y) <= d).
      { transitivity (2 ^ Z.log2 d); [apply Z.pow_le_mono_r; lia |].
        apply Z.log2_spec. lia. }
      assert (H53 : 2 ^ 53 * u = 2 ^ Z.succ (Z.log2 y)).
      { unfold u. rewrite <- Z.pow_add_r; [f_equal; lia | lia |].
        assert (53 <= Z.log2 y) by (apply Z.log2_le_pow2; lia). lia. }
      nia.
Qed.

Lemma round53_nonneg (y : Z) : 0 <= y -> 0 <= round53 y.
Proof. intros H. apply (round53_lower_pos 0 y); [lia | reflexivity | exact H]. Qed.

Lemma is_double_opp (d : Z) : is_double d -> is_double (- d).
Proof. unfold is_double. rewrite round53_opp. lia. Qed.

(** A double below [y] stays below the rounding of [y], one above stays
    above. *)
Lemma round53_lower (d y : Z) : is_double d -> d <= y -> d <= round53 y.
Proof.
  intros Hdd Hdy.
  destruct (Z.le_gt_cases 0 d) as [Hd | Hd]; [now apply round53_lower_pos |].
  destruct (Z.le_gt_cases 0 y) as [Hy | Hy].
  - pose proof (round53_nonneg y Hy). lia.
  - pose proof (round53_upper_pos (- d) (- y) ltac:(lia) (is_double_opp d Hdd) ltac:(lia)) as H.
    rewrite round53_opp in H. lia.
Qed.

Lemma round53_upper (d y : Z) : is_double d -> y <= d -> round53 y <= d.
Proof.
  intros Hdd Hyd.
  pose proof (round53_lower (- d) (- y) (is_double_opp d Hdd) ltac:(lia)) as H.
  rewrite round53_opp in H. lia.
Qed.

Lemma round53_idem (x : Z) : is_double (round53 x).
Proof.
  unfold is_double.
  destruct (Z.lt_ge_cases (Z.abs x) (2 ^ 53)) as [Hs | Hl].
  - rewrite (round53_small x Hs). now apply round53_small.
  - (* by sign *)
    assert (Hpos : forall a, 2 ^ 53 <= a -> round53 (round53 a) = round53 a).
    { clear. intros a Ha. destruct (round53_shape a Ha) as (Hu & Hb & Hs).
      set (u := 2 ^ (Z.log2 a - 52)) in *.
      pose proof (Z.div_mod a u ltac:(lia)) as Hdm.
      pose proof (Z.mod_pos_bound a u ltac:(lia)) as Hr.
      assert (Hq1 : 2 ^ 52 <= a / u) by (apply Z.div_le_lower_bound; lia).
      assert (Hq2 : a / u < 2 ^ 53) by (apply Z.div_lt_upper_bound; lia).
      assert (Hk : exists k, round53 a = k * u /\ 2 ^ 52 <= k <= 2 ^ 53).
      { destruct Hs as [-> | [-> _]]; eexists; split; try reflexivity; lia. }
      destruct Hk as (k & Hk & Hkb). rewrite Hk.
      assert (Hbig : 2 ^ 53 <= k * u) by (change (2 ^ 53) with (2 ^ 52 * 2); nia).
      destruct (round53_shape (k * u) Hbig) as (Hu' & Hb' & Hs').
      set (u' := 2 ^ (Z.log2 (k * u) - 52)) in *.
      assert (Hdiv : (k * u) mod u' = 0).
      { destruct (Z.eq_dec k (2 ^ 53)) as [-> | Hne].
        - assert (Hlog : Z.log2 (2 ^ 53 * u) = Z.log2 a + 1).
          { unfold u. rewrite <- Z.pow_add_r; [| lia |].
            - rewrite Z.log2_pow2; [lia |].
              assert (53 <= Z.log2 a) by (apply Z.log2_le_pow2; lia). lia.
            - assert (53 <= Z.log2 a) by (apply Z.log2_le_pow2; lia). lia. }
          unfold u'. rewrite Hlog.
          replace (Z.log2 a + 1 - 52) with (Z.succ (Z.log2 a - 52)) by lia.
          assert (53 <= Z.log2 a) by (apply Z.log2_le_pow2; lia).
          rewrite Z.pow_succ_r by lia. fold u.
          replace (2 ^ 53 * u) with (2 ^ 52 * (2 * u)) by (change (2 ^ 53) with (2 ^ 52 * 2); ring).
          apply Z.mod_mul. lia.
        - assert (Hlog : Z.log2 (k * u) = Z.log2 a).
          { apply Z.log2_unique.
            - apply Z.log2_nonneg.
            - assert (53 <= Z.log2 a) by (apply Z.log2_le_pow2; lia).
              assert (H52 : 2 ^ 52 * u = 2 ^ Z.log2 a).
              { unfold u. rewrite <- Z.pow_add_r by lia. f_equal. lia. }
              assert (H53 : 2 ^ 53 * u = 2 ^ Z.succ (Z.log2 a)).
              { unfold u. rewrite <- Z.pow_add_r by lia. f_equal. lia. }
              nia. }
          unfold u'. rewrite Hlog. fold u. apply Z.mod_mul. lia. }
      pose proof (Z.div_mod (k * u) u' ltac:(lia)) as Hdm'.
      destruct Hs' as [-> | [_ Hne]]; [| contradiction]. lia. }
    destruct (Z.le_gt_cases 0 x) as [Hx | Hx].
    + apply Hpos. lia.
    + pose proof (Hpos (- x) ltac:(lia)) as H. rewrite !round53_opp in H. lia.
Qed.

Lemma round53_le_2_53 (x : Z) : Z.abs x <= 2 ^ 53 -> round53 x = x.
Proof.
  intros H. destruct (Z.eq_dec (Z.abs x) (2 ^ 53)) as [He | Hne].
  - destruct (Z.abs_eq_or_opp x) as [Hx | Hx]; rewrite Hx in He.
    + now rewrite He.
    + replace x with (- 2 ^ 53) by lia. reflexivity.
  - apply round53_small. lia.
Qed.

Lemma abs_mod2 (x : Z) : Z.abs x mod 2 = x mod 2.
Proof.
  destruct (Z.abs_eq_or_opp x) as [-> | ->]; [reflexivity |].
  pose proof (Z.mod_pos_bound x 2 ltac:(lia)).
  pose proof (Z.mod_pos_bound (- x) 2 ltac:(lia)).
  pose proof (Z.div_mod x 2 ltac:(lia)).
  pose proof (Z.div_mod (- x) 2 ltac:(lia)).
  lia.
Qed.

(** Between 2^53 and 2^54 the doubles are the even integers. *)
Lemma round53_even (x : Z) :
  2 ^ 53 <= Z.abs x < 2 ^ 54 -> x mod 2 = 0 -> round53 x = x.
Proof.
  intros [H1 H2] He. unfold round53.
  destruct (Z.ltb_spec (Z.abs x) (2 ^ 53)); [reflexivity |].
  assert (Hl : Z.log2 (Z.abs x) = 53).
  { apply Z.log2_unique; [lia |]. change (2 ^ Z.succ 53) with (2 ^ 54). lia. }
  rewrite Hl. change (2 ^ (53 - 52)) with 2.
  rewrite abs_mod2, He. change (2 * 0 <? 2) with true. cbv iota.
  pose proof (Z.div_mod (Z.abs x) 2 ltac:(lia)) as Hd.
  rewrite abs_mod2, He in Hd.
  transitivity (Z.sgn x * Z.abs x); [f_equal; lia | apply sgn_abs].
Qed.

(** A double of magnitude 2^53 or more is an even integer. *)
Lemma round53_large_even (x : Z) : 2 ^ 53 <= Z.abs x -> round53 x mod 2 = 0.
Proof.
  intros H. unfold round53.
  destruct (Z.ltb_spec (Z.abs x) (2 ^ 53)); [lia |].
  assert (Hl : 53 <= Z.log2 (Z.abs x)) by (apply Z.log2_le_pow2; lia).
  set (e := Z.log2 (Z.abs x) - 52).
  assert (He : 2 ^ e = 2 * 2 ^ (e - 1)).
  { rewrite <- Z.pow_succ_r by lia. f_equal. lia. }
  rewrite He.
  match goal with |- (_ * (?q * _)) mod 2 = 0 =>
    replace (Z.sgn x * (q * (2 * 2 ^ (e - 1)))) with (Z.sgn x * q * 2 ^ (e - 1) * 2) by ring
  end.
  apply Z.mod_mul. lia.
Qed.

Lemma round53_large (x : Z) : 2 ^ 53 <= Z.abs x -> 2 ^ 53 <= Z.abs (round53 x).
Proof.
  intros H. unfold round53.
  destruct (Z.ltb_spec (Z.abs x) (2 ^ 53)); [lia |].
  assert (Hl : 53 <= Z.log2 (Z.abs x)) by (apply Z.log2_le_pow2; lia).
  set (e := Z.log2 (Z.abs x) - 52).
  assert (Hu : 0 < 2 ^ e) by (apply Z.pow_pos_nonneg; lia).
  assert (Hq : 2 ^ 52 <= Z.abs x / 2 ^ e).
  { apply Z.div_le_lower_bound; [lia |].
    rewrite Z.mul_comm, <- Z.pow_add_r by lia.
    replace (52 + e) with (Z.log2 (Z.abs x)) by lia.
    apply Z.log2_spec. lia. }
  set (q := Z.abs x / 2 ^ e) in *.
  assert (Hq' : q <= (if 2 * (Z.abs x mod 2 ^ e) <? 2 ^ e then q
                      else if 2 ^ e <? 2 * (Z.abs x mod 2 ^ e) then q + 1
                      else if Z.even q then q else q + 1)).
  { repeat match goal with |- context [if ?b then _ else _] => destruct b end; lia. }
  set (q' := if 2 * (Z.abs x mod 2 ^ e) <? 2 ^ e then q else _) in *.
  assert (Hsg : Z.abs (Z.sgn x) = 1) by (destruct x; cbn in *; lia).
  assert (He : 2 ^ 53 = 2 ^ 52 * 2) by reflexivity.
  assert (2 <= 2 ^ e).
  { change 2 with (2 ^ 1) at 1. apply Z.pow_le_mono_r; lia. }
  rewrite Z.abs_mul, Hsg, Z.abs_eq by nia. nia.
Qed.

End JSNumberFacts.

Module SumToNFacts.
Import JSNumber.
Import JSNumberFacts.
Import SumToN.

(** The numerator of implementation A is even. *)
Lemma numerator_even (absN : Z) :
  0 <= absN -> round53 (absN * round53 (absN + 1)) mod 2 = 0.
Proof.
  intros H0.
  destruct (Z.lt_ge_cases (Z.abs (absN * round53 (absN + 1))) (2 ^ 53)) as [Hs | Hl];
    [| now apply round53_large_even].
  rewrite round53_small by exact Hs.
  destruct (Z.lt_ge_cases (Z.abs (absN + 1)) (2 ^ 53)) as [Hs1 | Hl1].
  - rewrite round53_small by exact Hs1.
    rewrite Z.mul_mod by lia. rewrite (Z.add_mod absN 1) by lia.
    assert (H : absN mod 2 = 0 \/ absN mod 2 = 1)
      by (pose proof (Z.mod_pos_bound absN 2); lia).
    destruct H as [-> | ->]; reflexivity.
  - pose proof (round53_large _ Hl1) as Hr. rewrite Z.abs_mul in Hs.
    assert (1 <= Z.abs absN) by lia. nia.
Qed.

(** ** The closed form *)

Lemma twice_triangle (m : Z) : 2 * (m * (m + 1) / 2) = m * (m + 1).
Proof.
  pose proof (Z.div_mod (m * (m + 1)) 2 ltac:(lia)) as Hd.
  assert (Hm : (m * (m + 1)) mod 2 = 0); [| lia].
  rewrite Z.mul_mod by lia.
  rewrite (Z.add_mod m 1) by lia.
  assert (H : m mod 2 = 0 \/ m mod 2 = 1)
    by (pose proof (Z.mod_pos_bound m 2); lia).
  destruct H as [-> | ->]; reflexivity.
Qed.

Lemma gauss_nonneg (k : Z) : 0 <= k -> gauss k = k * (k + 1) / 2.
Proof.
  intros H. unfold gauss.
  now destruct (Z.ltb_spec k 0); [lia |].
Qed.

Lemma gauss_signed (n : Z) : gauss n = if n <? 0 then - gauss (Z.abs n) else gauss (Z.abs n).
Proof.
  rewrite (gauss_nonneg (Z.abs n)) by lia. unfold gauss.
  destruct (Z.ltb_spec n 0); [reflexivity |].
  now rewrite Z.abs_eq by lia.
Qed.

Lemma gauss_step (k : Z) : 1 <= k -> gauss k = gauss (k - 1) + k.
Proof.
  intros H. rewrite !gauss_nonneg by lia.
  pose proof (twice_triangle k) as H1.
  pose proof (twice_triangle (k - 1)) as H2.
  replace (k - 1 + 1) with k in * by lia. lia.
Qed.

(** Up to [n = 2^27] the sum is a double: it is below 2^53, or it is
    2^53 + 2^26. *)
Lemma round53_gauss (k : Z) : 0 <= k <= 2 ^ 27 -> round53 (gauss k) = gauss k.
Proof.
  intros Hk. rewrite gauss_nonneg by lia.
  pose proof (twice_triangle k) as Ht.
  destruct (Z.eq_dec k (2 ^ 27)) as [-> | Hne]; [reflexivity |].
  apply round53_small. rewrite Z.abs_eq by nia.
  change (2 ^ 27) with 134217728 in *. change (2 ^ 53) with 9007199254740992.
  nia.
Qed.

Lemma gauss_bounds (k : Z) : 0 <= k <= 2 ^ 27 -> 0 <= gauss k < 2 ^ 54.
Proof.
  intros Hk. rewrite gauss_nonneg by lia.
  pose proof (twice_triangle k) as Ht.
  change (2 ^ 27) with 134217728 in *. change (2 ^ 54) with 18014398509481984.
  nia.
Qed.

(** ** Implementation A *)

Lemma sum_to_n_a_gauss (n : Z) : Z.abs n <= 2 ^ 27 -> sum_to_n_a n = gauss n.
Proof.
  intros Hn. rewrite gauss_signed. unfold sum_to_n_a. cbv zeta.
  set (absN := Z.abs n) in *.
  assert (H0 : 0 <= absN) by (subst absN; lia).
  enough (round53 (absN * round53 (absN + 1)) / 2 = gauss absN) as -> by reflexivity.
  change (2 ^ 27) with 134217728 in Hn.
  rewrite (round53_small (absN + 1))
    by (rewrite Z.abs_eq by lia; change (2 ^ 53) with 9007199254740992; lia).
  rewrite gauss_nonneg by lia. f_equal.
  pose proof (twice_triangle absN) as Ht.
  destruct (Z.eq_dec absN 134217728) as [-> | Hne]; [reflexivity |].
  destruct (Z.lt_ge_cases (absN * (absN + 1)) (2 ^ 53)) as [Hs | Hl].
  - apply round53_small. rewrite Z.abs_eq by nia. exact Hs.
  - apply round53_even.
    + rewrite Z.abs_eq by nia. split; [exact Hl |].
      change (2 ^ 54) with 18014398509481984. nia.
    + rewrite <- Ht, Z.mul_comm. apply Z.mod_mul. lia.
Qed.

(** ** Implementation B *)

Lemma for_loop_b_unfold (absN i sum : Z) :
  for_loop_b absN i sum =
  if decide (i <= absN) then
    if decide (i < round53 (i + 1))
    then for_loop_b absN (round53 (i + 1)) (round53 (sum + i))
    else Diverges
  else Returns sum.
Proof.
  funelim (for_loop_b absN i sum).
  - now rewrite decide_False by assumption.
  - rewrite decide_True by assumption. now rewrite decide_True by assumption.
  - rewrite decide_True by assumption. now rewrite decide_False by assumption.
Qed.

(** Loop invariant: entered at [i] with the sum of the numbers below [i],
    the loop reaches [j] with the sum of the numbers below [j], as long as
    the sums are doubles. *)
Lemma for_loop_b_run (absN i j : Z) :
  1 <= i <= j -> j <= absN + 1 -> j <= 2 ^ 27 + 1 ->
  for_loop_b absN i (gauss (i - 1)) = for_loop_b absN j (gauss (j - 1)).
Proof.
  intros Hij Hj Hb.
  remember (Z.to_nat (j - i)) as d eqn:Hd.
  revert i Hij Hd. induction d as [| d IH]; intros i Hij Hd.
  - now replace j with i by lia.
  - rewrite for_loop_b_unfold.
    change (2 ^ 27) with 134217728 in Hb.
    assert (Hi : round53 (i + 1) = i + 1).
    { apply round53_small. rewrite Z.abs_eq by lia.
      change (2 ^ 53) with 9007199254740992. lia. }
    rewrite Hi, decide_True by lia. rewrite decide_True by lia.
    rewrite <- gauss_step by lia.
    rewrite round53_gauss by (change (2 ^ 27) with 134217728; lia).
    replace i with (i + 1 - 1) at 2 by lia.
    apply IH; lia.
Qed.

Lemma for_loop_b_gauss (absN : Z) :
  0 <= absN <= 2 ^ 27 -> for_loop_b absN 1 0 = Returns (gauss absN).
Proof.
  intros H.
  change 0 with (gauss (1 - 1)) at 1.
  rewrite (for_loop_b_run absN 1 (absN + 1)) by lia.
  rewrite for_loop_b_unfold, decide_False by lia.
  now replace (absN + 1 - 1) with absN by lia.
Qed.

Lemma sum_to_n_b_gauss (n : Z) : Z.abs n <= 2 ^ 27 -> sum_to_n_b n = Returns (gauss n).
Proof.
  intros Hn. unfold sum_to_n_b. cbv zeta.
  rewrite for_loop_b_gauss by lia. cbn [signed].
  now rewrite (gauss_signed n).
Qed.

(** ** Implementation C *)

Lemma signed_nonneg (k : Z) (c : completion) : 0 <= k -> signed k c = c.
Proof.
  intros H. destruct c; cbn; [| reflexivity ..].
  now destruct (Z.ltb_spec k 0); [lia |].
Qed.

Lemma sum_to_n_c_abs (frames : nat) (n : Z) :
  sum_to_n_c frames n = signed n (sum_to_n_c frames (Z.abs n)).
Proof.
  destruct frames as [| frames]; [reflexivity |].
  cbn [sum_to_n_c]. cbv zeta. rewrite Z.abs_idemp.
  destruct (Z.abs n =? 0).
  - cbn. now destruct (n <? 0).
  - destruct (sum_to_n_c frames (round53 (Z.abs n - 1))); [| reflexivity ..].
    now rewrite (signed_nonneg (Z.abs n)) by lia.
Qed.

Lemma sum_to_n_c_gauss_nonneg (frames : nat) (k : Z) :
  0 <= k <= 2 ^ 27 -> k < Z.of_nat frames -> sum_to_n_c frames k = Returns (gauss k).
Proof.
  revert k. induction frames as [| frames IH]; intros k Hk Hf; [lia |].
  cbn [sum_to_n_c]. cbv zeta. rewrite (Z.abs_eq k) by lia.
  destruct (Z.eqb_spec k 0) as [-> | Hne]; [reflexivity |].
  change (2 ^ 27) with 134217728 in Hk.
  rewrite (round53_small (k - 1))
    by (rewrite Z.abs_eq by lia; change (2 ^ 53) with 9007199254740992; lia).
  rewrite IH by (change (2 ^ 27) with 134217728; lia).
  rewrite signed_nonneg by lia.
  rewrite (Z.add_comm k), <- gauss_step by lia.
  now rewrite round53_gauss by (change (2 ^ 27) with 134217728; lia).
Qed.

Lemma sum_to_n_c_overflow_nonneg (frames : nat) (k : Z) :
  Z.of_nat frames <= k <= 2 ^ 53 -> sum_to_n_c frames k = RangeError.
Proof.
  revert k. induction frames as [| frames IH]; intros k Hk; [reflexivity |].
  cbn [sum_to_n_c]. cbv zeta. rewrite (Z.abs_eq k) by lia.
  destruct (Z.eqb_spec k 0) as [-> | Hne]; [lia |].
  change (2 ^ 53) with 9007199254740992 in Hk.
  rewrite (round53_small (k - 1))
    by (rewrite Z.abs_eq by lia; change (2 ^ 53) with 9007199254740992; lia).
  now rewrite IH by (change (2 ^ 53) with 9007199254740992; lia).
Qed.

Lemma sum_to_n_c_gauss (frames : nat) (n : Z) :
  Z.abs n <= 2 ^ 27 -> Z.abs n < Z.of_nat frames ->
  sum_to_n_c frames n = Returns (gauss n).
Proof.
  intros Hn Hf. rewrite sum_to_n_c_abs, sum_to_n_c_gauss_nonneg by lia.
  cbn [signed]. now rewrite (gauss_signed n).
Qed.

Lemma sum_to_n_c_overflow (frames : nat) (n : Z) :
  Z.of_nat frames <= Z.abs n <= 2 ^ 53 -> sum_to_n_c frames n = RangeError.
Proof.
  intros H. now rewrite sum_to_n_c_abs, sum_to_n_c_overflow_nonneg by lia.
Qed.

Example sum_to_n_a_5 : sum_to_n_a 5 = 15.
Proof. reflexivity. Qed.

Example sum_to_n_b_5 : sum_to_n_b 5 = Returns 15.
Proof. reflexivity. Qed.

Example sum_to_n_c_neg4 : sum_to_n_c 5 (-4) = Returns (-10).
Proof. reflexivity. Qed.

(** C9.  For every integer [n] of magnitude up to 2^27 the three
    implementations give the value of the closed form, n*(n+1)/2 for
    n >= 0 and -(|n|*(|n|+1)/2) for n < 0: A and B return it, and C
    returns it when the call stack has more than |n| frames left and
    throws [RangeError] otherwise. *)
Theorem sum_to_n_equivalent (frames : nat) (n : Z) :
  Z.abs n <= 2 ^ 27 ->
  sum_to_n_a n = gauss n /\
  sum_to_n_b n = Returns (gauss n) /\
  (Z.abs n < Z.of_nat frames -> sum_to_n_c frames n = Returns (gauss n)) /\
  (Z.of_nat frames <= Z.abs n -> sum_to_n_c frames n = RangeError).
Proof.
  intros Hn. split; [| split; [| split]].
  - now apply sum_to_n_a_gauss.
  - now apply sum_to_n_b_gauss.
  - intros Hf. now apply sum_to_n_c_gauss.
  - intros Hf. apply sum_to_n_c_overflow.
    change (2 ^ 27) with 134217728 in Hn. change (2 ^ 53) with 9007199254740992. lia.
Qed.

Lemma sum_to_n_equivalent_witness :
  sum_to_n_a (-4) = -10 /\ sum_to_n_b (-4) = Returns (-10) /\
  sum_to_n_c 5 (-4) = Returns (-10) /\ sum_to_n_c 4 (-4) = RangeError.
Proof.
  assert (H4 : Z.abs (-4) <= 2 ^ 27) by (vm_compute; discriminate).
  destruct (sum_to_n_equivalent 5 (-4) H4) as (Ha & Hb & Hc & _).
  destruct (sum_to_n_equivalent 4 (-4) H4) as (_ & _ & _ & Ho).
  split; [exact Ha | split; [exact Hb | split]].
  - apply Hc. reflexivity.
  - apply Ho. vm_compute. discriminate.
Defined.

(** At n = 2^27 + 2 the product of implementation A and the sums of
    implementation B are no longer doubles: A returns the closed form plus
    one, B the closed form minus one.  With 10000 frames left, C throws
    at n = 10000, where A returns 50005000. *)
Lemma sum_to_n_counterexample :
  gauss 134217730 = 9007199590285315 /\
  sum_to_n_a 134217730 = 9007199590285316 /\
  sum_to_n_b 134217730 = Returns 9007199590285314 /\
  sum_to_n_a 10000 = 50005000 /\
  sum_to_n_c (Z.to_nat 10000) 10000 = RangeError.
Proof.
  split; [reflexivity | split; [reflexivity | split; [| split; [reflexivity |]]]].
  - unfold sum_to_n_b. cbv zeta.
    change (Z.abs 134217730) with 134217730.
    change 0 with (gauss (1 - 1)) at 1.
    rewrite (for_loop_b_run 134217730 1 134217729)
      by (change (2 ^ 27) with 134217728; lia).
    rewrite for_loop_b_unfold.
    replace (round53 (134217729 + 1)) with 134217730 by (vm_compute; reflexivity).
    replace (round53 (gauss (134217729 - 1) + 134217729)) with 9007199456067584
      by (vm_compute; reflexivity).
    rewrite decide_True by lia. rewrite decide_True by lia.
    rewrite for_loop_b_unfold.
    replace (round53 (134217730 + 1)) with 134217731 by (vm_compute; reflexivity).
    replace (round53 (9007199456067584 + 134217730)) with 9007199590285314
      by (vm_compute; reflexivity).
    rewrite decide_True by lia. rewrite decide_True by lia.
    rewrite for_loop_b_unfold, decide_False by lia.
    reflexivity.
  - apply sum_to_n_c_overflow. vm_compute. split; discriminate.
Qed.

End SumToNFacts.

Module ResourceServiceFacts.
Import ResourceService.

Lemma get_rows i db : rows (get i db).2 = rows db.
Proof. reflexivity. Qed.

Lemma get_writes i db :
  filter is_write (journal (get i db).2) = filter is_write (journal db).
Proof. cbn. rewrite filter_app. cbn. apply app_nil_r. Qed.

Lemma update_fields_nil inp :
  update_fields inp = [] <-> inp = no_fields.
Proof.
  destruct inp as [[n|] [d|] [c|] [s|]]; unfold update_fields, no_fields; cbn;
    split; intros H; try discriminate H; reflexivity.
Qed.

Lemma update_no_fields now i db : update now i no_fields db = getById i db.
Proof. reflexivity. Qed.

Lemma update_some_fields now i inp db :
  update_fields inp <> [] ->
  update now i inp db =
  getById i (run now (UPDATE (update_fields inp ++ [set_updated_at_now]) i) db).2.
Proof.
  intros Hne. unfold update.
  destruct (update_fields inp) eqn:E; [congruence |].
  rewrite decide_False by (cbn; lia). reflexivity.
Qed.

Lemma assign_fields_patched now inp r :
  patched inp r (foldl (assign now) r (update_fields inp ++ [set_updated_at_now])) /\
  updated_at (foldl (assign now) r (update_fields inp ++ [set_updated_at_now])) = now.
Proof.
  destruct inp as [[n|] [d|] [c|] [s|]], r; unfold patched, update_fields; cbn;
    repeat split; reflexivity.
Qed.

Example update_name_only :
  let r := {| id := 1; name := "Original Name"; description := Some "Original Description";
              category := Some "original"; status := Some "active";
              created_at := 5; updated_at := 5 |} in
  let db := {| rows := {[ 1 := r ]}; last_id := 1; journal := [] |} in
  (update 9 1 {| u_name := Some "Updated Name"; u_description := None;
                 u_category := None; u_status := None |} db).1
  = Some {| id := 1; name := "Updated Name"; description := Some "Original Description";
            category := Some "original"; status := Some "active";
            created_at := 5; updated_at := 9 |}.
Proof. reflexivity. Qed.

(** C10. [ResourceService.update] preserves the frame.  For a stored
    resource, an update with no field supplied runs no writing statement,
    leaves every row as it is and returns the stored resource; an update
    with some fields supplied returns (and stores) the resource in which
    the supplied fields have their new values, [updated_at] is the current
    time, and [id], [created_at] and every field not supplied keep their
    prior values; no other row changes. *)
Theorem update_frame_preserving (now i : Z) (inp : UpdateResourceInput)
    (db : Database) (r : Resource) :
  rows db !! i = Some r ->
  ( (update now i no_fields db).1 = Some r /\
    rows (update now i no_fields db).2 = rows db /\
    filter is_write (journal (update now i no_fields db).2)
      = filter is_write (journal db) ) /\
  ( exists r',
      (update now i inp db).1 = Some r' /\
      rows (update now i inp db).2 !! i = Some r' /\
      patched inp r r' /\
      (inp <> no_fields -> updated_at r' = now) /\
      (inp = no_fields -> updated_at r' = updated_at r) ) /\
  ( forall j, j <> i -> rows (update now i inp db).2 !! j = rows db !! j ).
Proof.
  intros Hr. split; [| split].
  - rewrite update_no_fields. unfold getById.
    rewrite get_rows, get_writes. cbn. auto.
  - destruct (decide (inp = no_fields)) as [-> | Hne].
    + exists r. rewrite update_no_fields. cbn.
      repeat split; auto. congruence.
    + assert (Hf : update_fields inp <> []) by (now rewrite update_fields_nil).
      rewrite (update_some_fields now i inp db Hf).
      exists (foldl (assign now) r (update_fields inp ++ [set_updated_at_now])).
      destruct (assign_fields_patched now inp r) as [Hp Hu].
      cbn. rewrite lookup_alter_eq, Hr. cbn.
      repeat split; auto; try apply Hp. congruence.
  - intros j Hj.
    destruct (decide (inp = no_fields)) as [-> | Hne].
    + reflexivity.
    + assert (Hf : update_fields inp <> []) by (now rewrite update_fields_nil).
      rewrite (update_some_fields now i inp db Hf). cbn.
      now rewrite lookup_alter_ne by congruence.
Qed.

(** The frame theorem at the resource of the service's own test suite. *)
Lemma update_frame_preserving_witness :
  let r := {| id := 1; name := "Original Name"; description := Some "Original Description";
              category := Some "original"; status := Some "active";
              created_at := 5; updated_at := 5 |} in
  let db := {| rows := {[ 1 := r ]}; last_id := 1; journal := [SELECT 1] |} in
  let inp := {| u_name := Some "Updated Name"; u_description := None;
                u_category := None; u_status := None |} in
  rows db !! 1 = Some r /\
  (update 9 1 no_fields db).1 = Some r /\
  exists r', (update 9 1 inp db).1 = Some r' /\ patched inp r r'.
Proof.
  intros r db inp.
  assert (Hr : rows db !! 1 = Some r) by reflexivity.
  destruct (update_frame_preserving 9 1 inp db r Hr)
    as [[H1 _] [[r' [H2 [_ [H3 _]]]] _]].
  split; [exact Hr | split; [exact H1 |]].
  exists r'. split; assumption.
Defined.

End ResourceServiceFacts.

Module ScoreboardFacts.
Import JSNumber.
Import JSNumberFacts.
Import Scoreboard.

Section Validation.
Context `{cfg : Config}.

Lemma validate_checks_eq userId a now w :
  validate_checks userId a now w =
  (Return (checks_at userId a now w), received (EXISTS (action_key (actionId a))) w).
Proof. reflexivity. Qed.

Lemma validate_reject userId a now w :
  passes (checks_at userId a now w) = false ->
  validate userId a now w =
  (Return false, received (EXISTS (action_key (actionId a))) w).
Proof.
  intros Hp. unfold validate, bind. rewrite validate_checks_eq.
  unfold validate_commit. unfold passes in Hp. now rewrite Hp.
Qed.

Lemma validate_accept userId a now w :
  passes (checks_at userId a now w) = true ->
  (validate userId a now w).1 = Return true /\
  kv (validate userId a now w).2
    = <[action_key (actionId a) := (VStr "used", Some (now + 3600 * 1000))]> (kv w) /\
  audit (validate userId a now w).2 = audit w ++ [tx_of userId a now] /\
  zsets (validate userId a now w).2
    = <[leaderboard_key :=
          <[userId := round53 (default 0 (zset_of leaderboard_key w !! userId)
                               + expectedScore (actionType a))]>
            (zset_of leaderboard_key w)]> (zsets w).
Proof.
  intros Hp. unfold validate, bind. rewrite validate_checks_eq.
  unfold validate_commit. unfold passes in Hp. rewrite Hp.
  repeat split; reflexivity.
Qed.

Lemma validate_returns userId a now w :
  (validate userId a now w).1 = Return (passes (checks_at userId a now w)).
Proof.
  destruct (passes (checks_at userId a now w)) eqn:Hp.
  - now apply validate_accept.
  - now rewrite validate_reject.
Qed.

(** C3 (amended). The expiry check fails exactly when
    [now >= expiresAt], where [expiresAt = timestamp + 600000]: a token
    submitted at [expiresAt] or later is not awarded; at [expiresAt + 1]
    the check fails, at [expiresAt - 1] it passes. *)
Theorem validate_expiry (userId : string) (a : Action) (now : Z) (w : World) :
  let expiresAt := timestamp a + 600000 in
  exists c,
    (validate_checks userId a now w).1 = Return c /\
    (isNotExpired c = false <-> now >= expiresAt) /\
    (now >= expiresAt -> (validate userId a now w).1 = Return false) /\
    (now = expiresAt + 1 -> isNotExpired c = false) /\
    (now = expiresAt - 1 -> isNotExpired c = true).
Proof.
  intros expiresAt. exists (checks_at userId a now w).
  rewrite validate_checks_eq. cbn [fst isNotExpired checks_at].
  assert (Hiff : bool_decide (now - timestamp a < 600000) = false <-> now >= expiresAt).
  { rewrite bool_decide_eq_false. unfold expiresAt. lia. }
  split; [reflexivity |]. split; [exact Hiff |]. split; [| split].
  - intros Hge. rewrite validate_returns. f_equal.
    unfold passes. cbn [isNotExpired checks_at].
    apply Hiff in Hge. rewrite Hge. now rewrite andb_false_r.
  - intros ->. apply Hiff. lia.
  - intros ->. apply bool_decide_eq_true. unfold expiresAt. lia.
Qed.


(** *** Sequential runs: at most one award for an action *)

Lemma action_key_inj x y : action_key x = action_key y -> x = y.
Proof. unfold action_key. apply (inj (String.app "action:")). Qed.







Lemma live_after_accept userId a now w t2 :
  passes (checks_at userId a now w) = true ->
  live t2 (action_key (actionId a)) (validate userId a now w).2
    = if t2 <=? now + 3600 * 1000 then Some (VStr "used") else None.
Proof.
  intros Hp. destruct (validate_accept userId a now w Hp) as (_ & Hkv & _).
  unfold live. rewrite Hkv, lookup_insert_eq. reflexivity.
Qed.


Lemma run_schedule_cons i now rest pool w :
  run_schedule ((i, now) :: rest) pool w =
  match pool !! i with
  | Some r => run_schedule rest (<[i := (step now r w).1]> pool) (step now r w).2
  | None => run_schedule rest pool w
  end.
Proof. cbn. destruct (pool !! i); [| reflexivity]. now destruct (step now r w). Qed.

(** C2. With the consumed marker read by [EXISTS] and written by [SETEX]
    on the other side of an [await], two concurrent validations of one
    correctly signed, unexpired, unused token whose reads both precede the
    writes are both awarded: the audit log gets two transactions for the
    one [actionId]. *)
Theorem check_then_mark_awards_twice (userId : string) (a : Action) (t : Z) (w : World) :
  passes (checks_at userId a t w) = true ->
  (run_schedule [(0%nat, t); (1%nat, t); (0%nat, t); (1%nat, t)]
                [Submitted userId a; Submitted userId a] w).1
    = [Finished true; Finished true] /\
  audit (run_schedule [(0%nat, t); (1%nat, t); (0%nat, t); (1%nat, t)]
                      [Submitted userId a; Submitted userId a] w).2
    = audit w ++ [tx_of userId a t; tx_of userId a t].
Proof.
  intros Hp.
  assert (Hc : forall w', kv w' = kv w ->
             step t (Submitted userId a) w'
             = (Awaiting userId a (checks_at userId a t w),
                received (EXISTS (action_key (actionId a))) w')).
  { intros w' Hkv. cbn [step]. rewrite validate_checks_eq.
    unfold checks_at, live. now rewrite Hkv. }
  assert (Hd : forall w', (step t (Awaiting userId a (checks_at userId a t w)) w').1
                          = Finished true /\
                          audit (step t (Awaiting userId a (checks_at userId a t w)) w').2
                          = audit w' ++ [tx_of userId a t]).
  { intros w'. cbn [step]. unfold validate_commit. unfold passes in Hp. rewrite Hp.
    split; reflexivity. }
  rewrite run_schedule_cons.
  change ([Submitted userId a; Submitted userId a] !! 0%nat) with (Some (Submitted userId a)).
  cbv iota beta. rewrite (Hc w eq_refl). cbn [fst snd].
  change (<[0%nat := ?x]> [?y; ?z]) with [x; z].
  rewrite run_schedule_cons.
  change ([?x; Submitted userId a] !! 1%nat) with (Some (Submitted userId a)).
  cbv iota beta.
  rewrite (Hc (received (EXISTS (action_key (actionId a))) w) eq_refl). cbn [fst snd].
  change (<[1%nat := ?x]> [?y; ?z]) with [y; x].
  rewrite run_schedule_cons.
  change ([?x; ?y] !! 0%nat) with (Some x).
  cbv iota beta.
  destruct (Hd (received (EXISTS (action_key (actionId a)))
                  (received (EXISTS (action_key (actionId a))) w))) as [Hr1 Ha1].
  destruct (step t (Awaiting userId a (checks_at userId a t w)) _) as [r1 w1].
  cbn [fst snd] in Hr1, Ha1 |- *. subst r1.
  change (<[0%nat := ?x]> [?y; ?z]) with [x; z].
  rewrite run_schedule_cons.
  change ([?x; ?y] !! 1%nat) with (Some y).
  cbv iota beta.
  destruct (Hd w1) as [Hr2 Ha2].
  destruct (step t (Awaiting userId a (checks_at userId a t w)) w1) as [r2 w2].
  cbn [fst snd] in Hr2, Ha2 |- *. subst r2.
  change (<[1%nat := ?x]> [?y; ?z]) with [y; x].
  cbn [run_schedule fst snd].
  split; [reflexivity |].
  rewrite Ha2, Ha1. cbn. now rewrite <- app_assoc.
Qed.

End Validation.

(** ** The ledger: scores are sums *)

Lemma zset_of_double key w u s : zset_of key w !! u = Some s -> is_double s.
Proof.
  unfold zset_of. rewrite lookup_fmap.
  destruct (default ∅ (zsets w !! key) !! u); cbn; intros [= <-]. apply round53_idem.
Qed.

Lemma zset_of_round key w : round53 <$> zset_of key w = zset_of key w.
Proof.
  unfold zset_of. rewrite <- map_fmap_compose. apply map_fmap_ext.
  intros u x _. cbn. apply round53_idem.
Qed.

Lemma zset_of_insert key z w :
  zset_of key (with_zsets <[key := z]> w) = round53 <$> z.
Proof. unfold zset_of, with_zsets. cbn. now rewrite lookup_insert_eq. Qed.

Lemma totalScore_double u w : is_double (totalScore u w).
Proof.
  unfold totalScore. destruct (zset_of leaderboard_key w !! u) eqn:E; cbn.
  - eapply zset_of_double; eauto.
  - reflexivity.
Qed.

Lemma updateUserScore_zset userId scoreToAdd w :
  zset_of leaderboard_key (updateUserScore userId scoreToAdd w).2
  = <[userId := round53 (totalScore userId w + scoreToAdd)]> (zset_of leaderboard_key w).
Proof.
  unfold updateUserScore, bind, redis_zincrby, redis_zrevrank, ret, totalScore.
  cbn [fst snd]. unfold zset_of at 1. cbn. rewrite lookup_insert_eq. cbn.
  rewrite fmap_insert, zset_of_round. f_equal. apply round53_idem.
Qed.

Lemma updateUserScore_total userId scoreToAdd w u :
  totalScore u (updateUserScore userId scoreToAdd w).2
  = if decide (userId = u) then round53 (totalScore u w + scoreToAdd) else totalScore u w.
Proof.
  unfold totalScore at 1. rewrite updateUserScore_zset.
  destruct (decide (userId = u)) as [-> | Hne].
  - now rewrite lookup_insert_eq.
  - now rewrite lookup_insert_ne by exact Hne.
Qed.

Lemma exact_sums_cons v d rest w :
  exact_sums ((v, d) :: rest) w ->
  totalScore v (updateUserScore v d w).2 = totalScore v w + d /\
  exact_sums rest (updateUserScore v d w).2.
Proof.
  intros Hex.
  assert (Hv : round53 (totalScore v w + d) = totalScore v w + d).
  { apply round53_le_2_53. specialize (Hex v). cbn [sum_magnitude] in Hex.
    rewrite decide_True in Hex by reflexivity.
    assert (0 <= sum_magnitude v rest).
    { clear. induction rest as [| [u x] rest IH]; cbn [sum_magnitude]; [lia |].
      destruct (decide (u = v)); lia. }
    lia. }
  split.
  - rewrite updateUserScore_total, decide_True by reflexivity. exact Hv.
  - intros u. specialize (Hex u). cbn [sum_magnitude] in Hex.
    rewrite updateUserScore_total. destruct (decide (v = u)) as [-> | Hne].
    + rewrite Hv. lia.
    + lia.
Qed.

Lemma apply_all_total calls : forall w u,
  exact_sums calls w ->
  totalScore u (apply_all calls w) = totalScore u w + sum_awarded u calls.
Proof.
  induction calls as [| [v d] rest IH]; intros w u Hex; cbn [apply_all sum_awarded].
  - lia.
  - destruct (exact_sums_cons v d rest w Hex) as [Hv Hrest].
    rewrite (IH _ _ Hrest).
    destruct (decide (v = u)) as [-> | Hne]; [rewrite Hv; lia |].
    rewrite updateUserScore_total, decide_False by exact Hne. lia.
Qed.

Lemma sum_awarded_perm u calls calls' :
  Permutation calls calls' -> sum_awarded u calls = sum_awarded u calls'.
Proof.
  induction 1 as [| [v d] l l' _ IH | [v d] [v' d'] l | l l' l'' _ IH1 _ IH2];
    cbn [sum_awarded]; lia.
Qed.

Lemma sum_magnitude_perm u calls calls' :
  Permutation calls calls' -> sum_magnitude u calls = sum_magnitude u calls'.
Proof.
  induction 1 as [| [v d] l l' _ IH | [v d] [v' d'] l | l l' l'' _ IH1 _ IH2];
    cbn [sum_magnitude]; lia.
Qed.

(** The members of the leaderboard after a sequence of calls. *)
Lemma apply_all_dom calls : forall w u,
  is_Some (zset_of leaderboard_key (apply_all calls w) !! u) <->
  is_Some (zset_of leaderboard_key w !! u) \/ u ∈ calls.*1.
Proof.
  induction calls as [| [v d] rest IH]; intros w u; cbn [apply_all fmap list_fmap].
  - split; [auto |]. intros [H | H]; [exact H | inversion H].
  - rewrite IH, updateUserScore_zset. cbn. rewrite elem_of_cons.
    destruct (decide (v = u)) as [-> | Hne].
    + rewrite lookup_insert_eq. split; [auto | eauto].
    + rewrite lookup_insert_ne by exact Hne. split.
      * intros [H | H]; auto.
      * intros [H | [H | H]]; auto. congruence.
Qed.

(** C4 (amended). A user's total is the sum of the scores added for that
    user: after any sequence of [updateUserScore] calls the total is the
    prior total plus the sum of the scores added, and the leaderboard
    reached does not depend on the order in which the calls arrive, as
    long as the sums are integers of magnitude up to 2^53, which Redis
    adds without rounding. *)
Theorem totalScore_is_sum (calls calls' : list (string * Z)) (w : World) :
  exact_sums calls w ->
  (forall userId,
     totalScore userId (apply_all calls w) = totalScore userId w + sum_awarded userId calls) /\
  (Permutation calls calls' ->
     zset_of leaderboard_key (apply_all calls w)
     = zset_of leaderboard_key (apply_all calls' w)).
Proof.
  intros Hex. split.
  - intros u. now apply apply_all_total.
  - intros Hperm.
    assert (Hex' : exact_sums calls' w).
    { intros u. rewrite <- (sum_magnitude_perm u calls calls' Hperm). apply Hex. }
    apply map_eq. intros u.
    pose proof (apply_all_total calls w u Hex) as H1.
    pose proof (apply_all_total calls' w u Hex') as H2.
    rewrite (sum_awarded_perm u calls calls' Hperm) in H1.
    pose proof (apply_all_dom calls w u) as D1.
    pose proof (apply_all_dom calls' w u) as D2.
    assert (Hmem : u ∈ calls.*1 <-> u ∈ calls'.*1) by (now rewrite Hperm).
    unfold totalScore in H1, H2.
    destruct (zset_of leaderboard_key (apply_all calls w) !! u) as [x |] eqn:E1;
      destruct (zset_of leaderboard_key (apply_all calls' w) !! u) as [y |] eqn:E2.
    + cbn in H1, H2. f_equal. lia.
    + exfalso. assert (H : is_Some (@None Z)) by (apply D2; rewrite <- Hmem; apply D1; eauto).
      destruct H as [? H]. discriminate.
    + exfalso. assert (H : is_Some (@None Z)) by (apply D1; rewrite Hmem; apply D2; eauto).
      destruct H as [? H]. discriminate.
    + reflexivity.
Qed.

(** ** The leaderboard: order and ranks *)

#[local] Instance zrev_le_total : Total zrev_le.
Proof.
  intros [m1 s1] [m2 s2]. unfold zrev_le. cbn.
  destruct (Z.lt_trichotomy s1 s2) as [H | [H | H]]; [right; lia | | left; lia].
  destruct (total String.le m1 m2); [right | left]; auto.
Qed.

#[local] Instance zrev_le_trans : Transitive zrev_le.
Proof.
  intros [m1 s1] [m2 s2] [m3 s3]. unfold zrev_le. cbn.
  intros [H1 | [H1 L1]] [H2 | [H2 L2]]; try (left; lia).
  right. split; [lia |]. now transitivity m2.
Qed.

Lemma format_loop_ranked l : forall k,
  format_loop (2 * k) (with_scores l) = ranked k l.
Proof.
  induction l as [| [m s] rest IH]; intros k; [reflexivity |].
  cbn [with_scores flat_map app format_loop ranked member_of parseInt fst snd].
  f_equal.
  - f_equal. rewrite Z.mul_comm, Z.div_mul by lia. reflexivity.
  - replace (2 * k + 2) with (2 * (k + 1)) by lia. apply IH.
Qed.

Lemma range_slice_top {A} (limit : Z) (l : list A) :
  0 < limit -> range_slice 0 (limit - 1) l = take (Z.to_nat limit) l.
Proof.
  intros Hl. unfold range_slice.
  replace (0 <? 0) with false by reflexivity.
  replace (limit - 1 <? 0) with false by (symmetry; apply Z.ltb_ge; lia).
  rewrite drop_0.
  destruct (Z.min (limit - 1) (Z.of_nat (length l) - 1) <? 0) eqn:Hneg.
  - apply Z.ltb_lt in Hneg. destruct l; [now rewrite take_nil | cbn in Hneg; lia].
  - apply Z.ltb_ge in Hneg.
    destruct (Z.le_ge_cases (limit - 1) (Z.of_nat (length l) - 1)) as [H | H].
    + rewrite Z.min_l by exact H. f_equal. lia.
    + rewrite Z.min_r by exact H.
      rewrite !take_ge by lia. reflexivity.
Qed.

Lemma getLeaderboard_eq limit w :
  0 < limit ->
  (getLeaderboard limit w).1
  = Return (ranked 0 (take (Z.to_nat limit) (zrev_list (zset_of leaderboard_key w)))).
Proof.
  intros Hl. unfold getLeaderboard, bind, redis_zrevrange_withscores, ret. cbn [fst].
  rewrite range_slice_top by exact Hl.
  f_equal. apply (format_loop_ranked _ 0).
Qed.

Lemma ranked_lookup l : forall k i e,
  ranked k l !! i = Some e ->
  e_rank e = k + Z.of_nat i + 1 /\ l !! i = Some (e_userId e, e_score e).
Proof.
  induction l as [| [m s] rest IH]; intros k i e H; [discriminate |].
  destruct i as [| i]; cbn in H.
  - injection H as <-. cbn. split; [lia | reflexivity].
  - apply IH in H as [Hr Hl]. split; [lia | exact Hl].
Qed.

Lemma ranked_length k l : length (ranked k l) = length l.
Proof. revert k. induction l as [| e rest IH]; intros k; cbn; [reflexivity | now rewrite IH]. Qed.


Lemma zrev_list_sorted z : StronglySorted zrev_le (zrev_list z).
Proof. apply StronglySorted_merge_sort; apply _. Qed.

Lemma zrev_list_elem z m s : (m, s) ∈ zrev_list z <-> z !! m = Some s.
Proof.
  unfold zrev_list. rewrite merge_sort_Permutation. apply elem_of_map_to_list.
Qed.

Lemma zrev_list_length z : length (zrev_list z) = size z.
Proof. unfold zrev_list. rewrite merge_sort_Permutation. apply length_map_to_list. Qed.




(** ** The broadcast decision *)

(** C5. [broadcastScoreUpdate] emits one event to the room "leaderboard":
    the full refresh [leaderboard:update], carrying [getLeaderboard(10)],
    exactly when [newRank <= 10 || previousRank <= 10] holds as JavaScript
    evaluates it, and otherwise [score:update], carrying the score data of
    the one user.  For two numeric ranks this is: if and only if the new
    rank or the previous rank is at most 10, and a user who rises from rank
    11 into the first ten triggers [leaderboard:update]; a previous rank
    that is no number ([undefined], "unranked") leaves the new rank to
    decide.  A previous rank [null] counts as 0: the refresh is emitted
    wherever the user arrives, also beyond rank 10. *)
Theorem broadcast_decision (userId : string) (scoreData : ScoreData) (w : World) :
  exists e,
    (broadcastScoreUpdate userId scoreData w).1 = Return e /\
    room e = "leaderboard" /\
    (event e = "leaderboard:update" \/ event e = "score:update") /\
    (event e = "leaderboard:update" <->
       rank_le (sd_newRank scoreData) 10 = true \/
       rank_le (sd_previousRank scoreData) 10 = true) /\
    (event e = "leaderboard:update" ->
       exists top, (getLeaderboard 10 w).1 = Return top /\
                   sent e = LEADERBOARD_REFRESH top) /\
    (event e = "score:update" -> sent e = SCORE_CHANGED scoreData) /\
    (forall rank previousRank,
       sd_newRank scoreData = RankNumber rank ->
       sd_previousRank scoreData = RankNumber previousRank ->
       (event e = "leaderboard:update" <-> rank <= 10 \/ previousRank <= 10) /\
       (previousRank = 11 -> rank <= 10 -> event e = "leaderboard:update")) /\
    (forall rank,
       sd_newRank scoreData = RankNumber rank ->
       sd_previousRank scoreData = RankOther ->
       (event e = "leaderboard:update" <-> rank <= 10)) /\
    (sd_previousRank scoreData = RankNull -> event e = "leaderboard:update").
Proof.
  unfold broadcastScoreUpdate, checkTopTenChanged.
  destruct (rank_le (sd_newRank scoreData) 10 || rank_le (sd_previousRank scoreData) 10)
    eqn:Hc.
  - assert (Hor : rank_le (sd_newRank scoreData) 10 = true \/
                  rank_le (sd_previousRank scoreData) 10 = true)
      by now apply orb_true_iff.
    eexists. split; [reflexivity |]. cbn [room event sent].
    split; [reflexivity |]. split; [now left |]. split; [tauto |].
    split; [intros _; eexists; split; reflexivity |].
    split; [discriminate |]. split; [| split; [| reflexivity]].
    + intros rank previousRank Hn Hp. rewrite Hn, Hp in Hor. cbn in Hor.
      rewrite !Z.leb_le in Hor. tauto.
    + intros rank Hn Hp. rewrite Hn, Hp in Hor. cbn in Hor.
      rewrite Z.leb_le in Hor. split; [intros _ | reflexivity].
      destruct Hor as [H | H]; [exact H | discriminate].
  - apply orb_false_iff in Hc as [H1 H2].
    eexists. split; [reflexivity |]. cbn [room event sent].
    split; [reflexivity |]. split; [now right |]. split.
    { split; [discriminate |]. rewrite H1, H2. intros [H | H]; discriminate. }
    split; [discriminate |]. split; [reflexivity |]. split; [| split].
    + intros rank previousRank Hn Hp. rewrite Hn in H1. rewrite Hp in H2. cbn in H1, H2.
      apply Z.leb_gt in H1, H2. split; [split; [discriminate | lia] | lia].
    + intros rank Hn Hp. rewrite Hn in H1. cbn in H1. apply Z.leb_gt in H1.
      split; [discriminate | lia].
    + intros Hp. rewrite Hp in H2. discriminate.
Qed.

(** ** The rate limit *)

Lemma rateLimit_first userId now w :
  live now (rate_limit_key userId) w = None ->
  (rateLimit userId now w).1 = Return tt /\
  kv (rateLimit userId now w).2 !! rate_limit_key userId
    = Some (VInt 1, Some (now + 60 * 1000)) /\
  zsets (rateLimit userId now w).2 = zsets w /\
  audit (rateLimit userId now w).2 = audit w.
Proof.
  intros Hl. unfold rateLimit, bind, redis_incr. rewrite Hl.
  rewrite decide_True by reflexivity.
  unfold redis_expire, live. cbn [kv with_kv received].
  rewrite lookup_insert_eq. cbn.
  rewrite decide_False by lia. unfold ret, with_kv. cbn.
  rewrite lookup_insert_eq. auto.
Qed.

Lemma rateLimit_next userId now w n deadline :
  kv w !! rate_limit_key userId = Some (VInt n, Some deadline) ->
  now <= deadline -> 1 <= n ->
  (rateLimit userId now w).1
    = (if decide (n + 1 > 10) then Throw RateLimitError else Return tt) /\
  kv (rateLimit userId now w).2 !! rate_limit_key userId
    = Some (VInt (n + 1), Some deadline) /\
  zsets (rateLimit userId now w).2 = zsets w /\
  audit (rateLimit userId now w).2 = audit w.
Proof.
  intros Hkv Hlt Hn. unfold rateLimit, bind, redis_incr, live. rewrite Hkv.
  replace (now <=? deadline) with true by (symmetry; apply Z.leb_le; lia).
  rewrite decide_False by lia. cbn [ret].
  destruct (decide (n + 1 > 10)); cbn; rewrite lookup_insert_eq; auto.
Qed.

Lemma ledger_frame_ret {A} (a : A) : ledger_frame (ret a).
Proof. intros w. cbn. auto. Qed.

Lemma ledger_frame_throw {A} e : ledger_frame (@throw A e).
Proof. intros w. cbn. auto. Qed.

Lemma ledger_frame_bind {A B} (m : M A) (k : A -> M B) :
  ledger_frame m -> (forall a, ledger_frame (k a)) -> ledger_frame (bind m k).
Proof.
  intros Hm Hk w. unfold bind. destruct (Hm w) as [Hz Ha].
  destruct (m w) as [[a | e] w1]; cbn [fst snd] in *; [| auto].
  destruct (Hk a w1) as [Hz' Ha']. split; congruence.
Qed.

Lemma redis_incr_frame now key : ledger_frame (redis_incr now key).
Proof. intros w. unfold redis_incr. destruct (live now key w) as [[s | n] |]; cbn; auto. Qed.

Lemma redis_expire_frame now key seconds : ledger_frame (redis_expire now key seconds).
Proof. intros w. unfold redis_expire. destruct (live now key w); cbn; auto. Qed.

(** The rate limit touches its counter only. *)
Lemma rateLimit_frame userId now : ledger_frame (rateLimit userId now).
Proof.
  unfold rateLimit. apply ledger_frame_bind; [apply redis_incr_frame |].
  intros current. apply ledger_frame_bind.
  - destruct (decide (current = 1)); [| apply ledger_frame_ret].
    apply ledger_frame_bind; [apply redis_expire_frame |].
    intros _. apply ledger_frame_ret.
  - intros _. destruct (decide (current > 10));
      [apply ledger_frame_throw | apply ledger_frame_ret].
Qed.

Lemma rateLimit_all_window userId times : forall w n deadline,
  kv w !! rate_limit_key userId = Some (VInt n, Some deadline) ->
  1 <= n ->
  Forall (fun t => t <= deadline) times ->
  (rateLimit_all userId times w).1 = window_results n times /\
  kv (rateLimit_all userId times w).2 !! rate_limit_key userId
    = Some (VInt (n + Z.of_nat (length times)), Some deadline) /\
  zsets (rateLimit_all userId times w).2 = zsets w /\
  audit (rateLimit_all userId times w).2 = audit w.
Proof.
  induction times as [| t rest IH]; intros w n deadline Hkv Hn Hall.
  - cbn. rewrite Z.add_0_r. auto.
  - apply Forall_cons in Hall as [Ht Hall].
    destruct (rateLimit_next userId t w n deadline Hkv Ht Hn) as (Hr & Hk & Hz & Ha).
    cbn [rateLimit_all window_results].
    destruct (rateLimit userId t w) as [r w1]. cbn [fst snd] in *.
    destruct (IH w1 (n + 1) deadline Hk ltac:(lia) Hall) as (IHr & IHk & IHz & IHa).
    destruct (rateLimit_all userId rest w1) as [rs w2]. cbn [fst snd] in *.
    subst r rs. split; [reflexivity |].
    split; [rewrite IHk; do 3 f_equal; cbn [length]; lia |].
    split; congruence.
Qed.

(** The rate limit sends [INCR] and, for the first submission of a window,
    [EXPIRE]; it never asks for the time a key has left. *)
Lemma rateLimit_commands userId now w :
  exists cs,
    commands (rateLimit userId now w).2 = commands w ++ cs /\
    Forall (fun c => c = INCR (rate_limit_key userId) \/
                     c = EXPIRE (rate_limit_key userId) 60) cs.
Proof.
  assert (F1 : Forall (fun c => c = INCR (rate_limit_key userId) \/
                                c = EXPIRE (rate_limit_key userId) 60)
                 [INCR (rate_limit_key userId)]).
  { apply Forall_cons. split; [now left | constructor]. }
  assert (F2 : Forall (fun c => c = INCR (rate_limit_key userId) \/
                                c = EXPIRE (rate_limit_key userId) 60)
                 [INCR (rate_limit_key userId); EXPIRE (rate_limit_key userId) 60]).
  { apply Forall_cons. split; [now left |]. apply Forall_cons. split; [now right | constructor]. }
  unfold rateLimit, bind, redis_incr.
  destruct (live now (rate_limit_key userId) w) as [[v | n] |] eqn:Hl.
  - exists [INCR (rate_limit_key userId)]. split; [reflexivity | exact F1].
  - destruct (decide (n + 1 = 1)) as [H1 | H1].
    + unfold redis_expire, live. cbn [kv with_kv received]. rewrite lookup_insert_eq.
      exists [INCR (rate_limit_key userId); EXPIRE (rate_limit_key userId) 60].
      split; [| exact F2].
      repeat match goal with
             | |- context [kv w !! ?k ≫= snd] => destruct (kv w !! k ≫= snd)
             | |- context [if ?b then _ else _] => destruct b
             end; cbn; now rewrite <- app_assoc.
    + exists [INCR (rate_limit_key userId)]. split; [| exact F1].
      cbn [ret]. destruct (decide (n + 1 > 10)); reflexivity.
  - rewrite decide_True by reflexivity.
    unfold redis_expire, live. cbn [kv with_kv received]. rewrite lookup_insert_eq.
    exists [INCR (rate_limit_key userId); EXPIRE (rate_limit_key userId) 60].
    split; [| exact F2].
    cbn. rewrite decide_False by lia. cbn. now rewrite <- app_assoc.
Qed.

Lemma rateLimit_all_commands userId times : forall w,
  exists cs,
    commands (rateLimit_all userId times w).2 = commands w ++ cs /\
    Forall (fun c => c = INCR (rate_limit_key userId) \/
                     c = EXPIRE (rate_limit_key userId) 60) cs.
Proof.
  induction times as [| t rest IH]; intros w.
  - exists []. split; [cbn; now rewrite app_nil_r | constructor].
  - cbn [rateLimit_all].
    destruct (rateLimit_commands userId t w) as (cs1 & H1 & F1).
    destruct (rateLimit userId t w) as [r w1]. cbn [snd] in H1.
    destruct (IH w1) as (cs2 & H2 & F2).
    destruct (rateLimit_all userId rest w1) as [rs w2]. cbn [snd] in H2 |- *.
    exists (cs1 ++ cs2). split; [now rewrite H2, H1, app_assoc |].
    apply Forall_app. auto.
Qed.

(** C7 (amended). With the limit of 10 submissions per minute in a fixed
    window: counting from a submission that finds no counter, and so opens
    a window of 60 s, the ten first submissions of the user are allowed
    and the eleventh, made before the window is over, is denied, the
    exception [RateLimitError] being thrown.  Neither the leaderboard nor
    the audit log changes, and what follows the rate limit in a handler is
    not run for the denied submission.  The denial carries no time to
    wait: Redis is sent [INCR] and [EXPIRE] only, the time the counter has
    left is never read. *)
Theorem rate_limit_eleventh (userId : string) (t0 : Z) (later : list Z) (w : World)
    (A : Type) (k : unit -> M A) :
  live t0 (rate_limit_key userId) w = None ->
  length later = 10%nat ->
  Forall (fun t => t0 <= t <= t0 + 60000) later ->
  let run := rateLimit_all userId (t0 :: later) w in
  run.1 = replicate 10 (Return tt) ++ [Throw RateLimitError] /\
  zsets run.2 = zsets w /\ audit run.2 = audit w /\
  (forall t w1, (rateLimit userId t w1).1 = Throw RateLimitError ->
     (bind (rateLimit userId t) k w1).1 = Throw RateLimitError /\
     zsets (bind (rateLimit userId t) k w1).2 = zsets w1 /\
     audit (bind (rateLimit userId t) k w1).2 = audit w1) /\
  (exists cs,
     commands run.2 = commands w ++ cs /\
     Forall (fun c => c = INCR (rate_limit_key userId) \/
                      c = EXPIRE (rate_limit_key userId) 60) cs).
Proof.
  intros Hlive Hlen Hwin run.
  destruct (rateLimit_first userId t0 w Hlive) as (Hr0 & Hk0 & Hz0 & Ha0).
  assert (Hwin' : Forall (fun t => t <= t0 + 60 * 1000) later).
  { eapply Forall_impl; [exact Hwin |]. cbn. intros; lia. }
  pose proof (rateLimit_all_window userId later (rateLimit userId t0 w).2 1 _ Hk0
                ltac:(lia) Hwin') as (Hrs & Hk & Hz & Ha).
  assert (Hrun : run = ((rateLimit userId t0 w).1
                          :: (rateLimit_all userId later (rateLimit userId t0 w).2).1,
                        (rateLimit_all userId later (rateLimit userId t0 w).2).2)).
  { unfold run. cbn [rateLimit_all]. destruct (rateLimit userId t0 w) as [r w1].
    cbn [fst snd]. now destruct (rateLimit_all userId later w1). }
  split; [| split; [| split; [| split]]].
  - rewrite Hrun. cbn [fst snd]. rewrite Hr0, Hrs.
    do 11 (destruct later as [| ? later]; try discriminate Hlen). reflexivity.
  - rewrite Hrun. cbn [fst snd]. congruence.
  - rewrite Hrun. cbn [fst snd]. congruence.
  - intros t w1 Hthrow. unfold bind.
    pose proof (rateLimit_frame userId t w1) as Hframe.
    destruct (rateLimit userId t w1) as [r w2]. cbn [fst snd] in *. subst r. auto.
  - apply rateLimit_all_commands.
Qed.

(** At the instant [expiresAt] itself the claim lets a token pass (it is
    not true that [now > expiresAt]); the validation refuses a correctly
    signed, unused token there, its expiry check having failed. *)
Lemma validate_expiry_counterexample :
  let expiresAt := timestamp demo_token + 600000 in
  ~ (expiresAt > expiresAt) /\
  (@validate_checks demo_config "alice" demo_token expiresAt empty_world).1
    = Return {| isValidSignature := true; isNotExpired := false; isNotUsed := true |} /\
  (@validate demo_config "alice" demo_token expiresAt empty_world).1 = Return false.
Proof. cbn zeta. split; [lia |]. split; vm_compute; reflexivity. Qed.

Lemma validate_expiry_witness :
  exists c,
    (@validate_checks demo_config "alice" demo_token 600001 empty_world).1 = Return c /\
    isNotExpired c = false /\
    (@validate demo_config "alice" demo_token 600001 empty_world).1 = Return false.
Proof.
  destruct (@validate_expiry demo_config "alice" demo_token 600001 empty_world)
    as [c [Hc [_ [Hrej [Hplus _]]]]].
  exists c. split; [exact Hc |]. split.
  - apply Hplus. reflexivity.
  - apply Hrej. cbn. lia.
Defined.






Lemma check_then_mark_awards_twice_witness :
  (@run_schedule demo_config [(0%nat, 5); (1%nat, 5); (0%nat, 5); (1%nat, 5)]
     [Submitted "alice" demo_token; Submitted "alice" demo_token] empty_world).1
    = [Finished true; Finished true] /\
  tx_actionId <$>
    audit (@run_schedule demo_config [(0%nat, 5); (1%nat, 5); (0%nat, 5); (1%nat, 5)]
             [Submitted "alice" demo_token; Submitted "alice" demo_token] empty_world).2
    = ["a1"; "a1"].
Proof.
  destruct (@check_then_mark_awards_twice demo_config "alice" demo_token 5 empty_world)
    as [H1 H2]; [vm_compute; reflexivity |].
  split; [exact H1 |]. rewrite H2. reflexivity.
Defined.

(** Scores that do not commute: from 2^53 on the doubles are the even
    integers, and 2^53 + 1 rounds back to 2^53.  The three calls add
    2^53 + 2 in all; arriving in this order they leave 2^53, in another
    order 2^53 + 2. *)
Lemma totalScore_order_counterexample :
  let calls := [("a", 2 ^ 53); ("a", 1); ("a", 1)] in
  let calls' := [("a", 1); ("a", 1); ("a", 2 ^ 53)] in
  Permutation calls calls' /\
  sum_awarded "a" calls = 2 ^ 53 + 2 /\
  totalScore "a" (apply_all calls empty_world) = 2 ^ 53 /\
  totalScore "a" (apply_all calls' empty_world) = 2 ^ 53 + 2.
Proof.
  cbn zeta. split; [| split; [| split]]; [| vm_compute; reflexivity ..].
  apply (Permutation_cons_app [_; _] []). reflexivity.
Qed.

(** Calls that commute. *)
Lemma totalScore_is_sum_witness :
  totalScore "a" (apply_all [("a", 10); ("b", 5); ("a", 7)] empty_world) = 17 /\
  zset_of leaderboard_key (apply_all [("a", 10); ("b", 5); ("a", 7)] empty_world)
  = zset_of leaderboard_key (apply_all [("a", 7); ("a", 10); ("b", 5)] empty_world).
Proof.
  assert (Hex : exact_sums [("a", 10); ("b", 5); ("a", 7)] empty_world).
  { intros u. unfold totalScore, zset_of, empty_world. cbn [zsets sum_magnitude].
    rewrite lookup_empty. cbn. rewrite fmap_empty, lookup_empty. cbn.
    change (2 ^ 53) with 9007199254740992.
    destruct (decide ("a" = u)), (decide ("b" = u)); cbn; lia. }
  destruct (totalScore_is_sum [("a", 10); ("b", 5); ("a", 7)]
              [("a", 7); ("a", 10); ("b", 5)] empty_world Hex) as (Hsum & Hperm).
  split; [rewrite Hsum; reflexivity |].
  apply Hperm. apply Permutation_sym. apply (Permutation_cons_app [_; _] []). reflexivity.
Defined.



(** Eleven users hold the ranks 1 to 11; the user ranked 11th gains 95
    points and takes rank 2: the refresh is emitted. *)
Example broadcast_rank_11_rises :
  let w := apply_all eleven_users empty_world in
  let w' := (updateUserScore "u11" 95 w).2 in
  let scoreData := {| sd_userId := "u11"; sd_newScore := 105;
                      sd_newRank := RankNumber 2; sd_previousRank := RankNumber 11 |} in
  (redis_zrevrank leaderboard_key "u11" w).1 = Return (Some 10) /\
  (updateUserScore "u11" 95 w).1 = Return {| newScore := 105; newRank := Some 2 |} /\
  exists e, (broadcastScoreUpdate "u11" scoreData w').1 = Return e /\
            event e = "leaderboard:update".
Proof.
  cbn zeta. split; [vm_compute; reflexivity |]. split; [vm_compute; reflexivity |].
  eexists. split; [vm_compute; reflexivity | reflexivity].
Qed.

(** Eleven users hold the ranks 1 to 11; a twelfth, who has no rank yet
    ([ZREVRANK] answers [null]), gains 5 points and arrives at rank 12.
    The first ten are what they were, and with the previous rank [null]
    the refresh is emitted all the same; with a previous rank that is no
    number the event is [score:update]. *)
Lemma broadcast_decision_witness :
  let w := apply_all eleven_users empty_world in
  let w' := (updateUserScore "u12" 5 w).2 in
  let scoreData := {| sd_userId := "u12"; sd_newScore := 5;
                      sd_newRank := RankNumber 12; sd_previousRank := RankNull |} in
  let unranked := {| sd_userId := "u12"; sd_newScore := 5;
                     sd_newRank := RankNumber 12; sd_previousRank := RankOther |} in
  (redis_zrevrank leaderboard_key "u12" w).1 = Return None /\
  (updateUserScore "u12" 5 w).1 = Return {| newScore := 5; newRank := Some 12 |} /\
  (getLeaderboard 10 w').1 = (getLeaderboard 10 w).1 /\
  (exists e top,
     (broadcastScoreUpdate "u12" scoreData w').1 = Return e /\
     event e = "leaderboard:update" /\
     sent e = LEADERBOARD_REFRESH top /\
     (getLeaderboard 10 w').1 = Return top) /\
  (exists e,
     (broadcastScoreUpdate "u12" unranked w').1 = Return e /\
     event e = "score:update" /\ sent e = SCORE_CHANGED unranked).
Proof.
  intros w w' scoreData unranked.
  split; [vm_compute; reflexivity |]. split; [vm_compute; reflexivity |].
  split; [vm_compute; reflexivity |]. split.
  - destruct (broadcast_decision "u12" scoreData w')
      as (e & He & _ & _ & _ & Htop & _ & _ & _ & Hnull).
    specialize (Hnull eq_refl). destruct (Htop Hnull) as (top & Hget & Hsent).
    exists e, top. auto.
  - destruct (broadcast_decision "u12" unranked w')
      as (e & He & _ & Hev & _ & _ & Hsc & _ & Hother & _).
    exists e. split; [exact He |].
    assert (Hs : event e = "score:update").
    { destruct Hev as [Hu | Hs]; [| exact Hs].
      apply (Hother 12 eq_refl eq_refl) in Hu. lia. }
    split; [exact Hs | now apply Hsc].
Defined.

(** The window is fixed.  A first submission at 0 opens it; nine follow at
    59 s and two more at 60.001 s, when a new window opens: the eleven
    submissions made from 59 s on lie within 1.001 s and all are allowed.
    And a denial does not tell the time left: in a window opened at 0 with
    ten submissions, the submission at 10 s (50 s left) and the one at 50 s
    (10 s left) are denied with the same exception. *)
Lemma rate_limit_counterexample :
  let across := [0; 59000; 59000; 59000; 59000; 59000; 59000; 59000; 59000; 59000;
                 60001; 60001] in
  let within := [0; 0; 0; 0; 0; 0; 0; 0; 0; 0; 10000; 50000] in
  (rateLimit_all "user-123" across empty_world).1 = replicate 12 (Return tt) /\
  (rateLimit_all "user-123" within empty_world).1
    = replicate 10 (Return tt) ++ [Throw RateLimitError; Throw RateLimitError] /\
  pttl 10000 (rate_limit_key "user-123")
    (rateLimit_all "user-123" (take 11 within) empty_world).2 = Some 50000 /\
  pttl 50000 (rate_limit_key "user-123")
    (rateLimit_all "user-123" within empty_world).2 = Some 10000.
Proof. cbn zeta. repeat split; vm_compute; reflexivity. Qed.

Lemma rate_limit_eleventh_witness :
  let later := [1000; 2000; 3000; 4000; 5000; 6000; 7000; 8000; 9000; 10000] in
  (rateLimit_all "user-123" (0 :: later) empty_world).1
    = replicate 10 (Return tt) ++ [Throw RateLimitError] /\
  audit (rateLimit_all "user-123" (0 :: later) empty_world).2 = [].
Proof.
  intros later.
  destruct (rate_limit_eleventh "user-123" 0 later empty_world unit (fun _ => ret tt))
    as (Hrs & _ & Ha & _).
  - reflexivity.
  - reflexivity.
  - unfold later. repeat constructor; lia.
  - split; [exact Hrs | exact Ha].
Defined.

End ScoreboardFacts.

Module ResourceServiceMore.
Import ResourceService.
Import ResourceController.

Lemma or_else_truthy x : or_else x Some None = ResourceList.truthy x.
Proof. reflexivity. Qed.

(** X1. [create] stores one new row under the next id and returns it: the
    name as given, [description] and [category] as given or NULL when
    missing or empty, [status] as given or ['active'] when missing or empty,
    both timestamps the current instant.  The row can be read back, and the
    rows stored before are kept. *)
Theorem create_stores_fresh_row (now : Z) (resource : CreateResourceInput) (db : Database) :
  well_formed db ->
  exists r,
    (ResourceService.create now resource db).1 = Some r /\
    id r = last_id db + 1 /\
    name r = c_name resource /\
    description r = ResourceList.truthy (c_description resource) /\
    category r = ResourceList.truthy (c_category resource) /\
    status r = Some (default "active" (ResourceList.truthy (c_status resource))) /\
    created_at r = now /\ updated_at r = now /\
    rows db !! id r = None /\
    (ResourceService.getById (id r) (ResourceService.create now resource db).2).1 = Some r /\
    (forall j r0, rows db !! j = Some r0 ->
       rows (ResourceService.create now resource db).2 !! j = Some r0) /\
    well_formed (ResourceService.create now resource db).2.
Proof.
  intros [Hpos Hwf].
  assert (Hfresh : rows db !! (last_id db + 1) = None).
  { destruct (rows db !! (last_id db + 1)) as [r0 |] eqn:E; [| reflexivity].
    apply Hwf in E. lia. }
  exists {| id := last_id db + 1; name := c_name resource;
            description := or_else (c_description resource) Some None;
            category := or_else (c_category resource) Some None;
            status := Some (or_else (c_status resource) (fun s => s) "active");
            created_at := now; updated_at := now |}.
  unfold ResourceService.create, ResourceService.getById, get. cbn.
  rewrite lookup_insert_eq.
  split; [reflexivity |].
  split; [reflexivity |]. split; [reflexivity |].
  split; [reflexivity |]. split; [reflexivity |].
  split.
  { f_equal. unfold or_else, ResourceList.truthy.
    destruct (c_status resource) as [s |]; [| reflexivity].
    destruct (decide (s = EmptyString)); reflexivity. }
  split; [reflexivity |]. split; [reflexivity |].
  split; [exact Hfresh |]. split; [reflexivity |]. split.
  - intros j r0 Hj. rewrite lookup_insert_ne; [exact Hj |].
    intros <-. congruence.
  - split; cbn; [lia |]. intros i r0 Hi.
    destruct (decide (i = last_id db + 1)) as [-> | Hne].
    + rewrite lookup_insert_eq in Hi. injection Hi as <-. cbn. lia.
    + rewrite lookup_insert_ne in Hi by congruence.
      apply Hwf in Hi. lia.
Qed.

Lemma create_stores_fresh_row_witness :
  exists r,
    (ResourceService.create 7 {| c_name := "Test Resource"; c_description := None;
                                 c_category := Some EmptyString; c_status := None |}
       empty_database).1 = Some r /\
    id r = 1 /\ description r = None /\ category r = None /\ status r = Some "active".
Proof.
  destruct (create_stores_fresh_row 7
              {| c_name := "Test Resource"; c_description := None;
                 c_category := Some EmptyString; c_status := None |} empty_database)
    as (r & Hr & Hid & _ & Hd & Hc & Hs & _).
  - split; cbn; [lia |]. intros i r0 Hi. rewrite lookup_empty in Hi. discriminate.
  - exists r. repeat split; assumption.
Defined.

(** X2. [delete] answers [true] exactly when the row was stored; afterwards
    the row is gone, [getById] finds nothing, a second [delete] answers
    [false], and every other row is kept. *)
Theorem delete_removes_row (i : Z) (db : Database) :
  ((delete_resource i db).1 = true <-> is_Some (rows db !! i)) /\
  rows (delete_resource i db).2 !! i = None /\
  (ResourceService.getById i (delete_resource i db).2).1 = None /\
  (delete_resource i (delete_resource i db).2).1 = false /\
  (forall j, j <> i -> rows (delete_resource i db).2 !! j = rows db !! j).
Proof.
  unfold delete_resource, ResourceService.getById, get. cbn.
  rewrite !lookup_delete_eq. cbn.
  split; [| split; [reflexivity | split; [reflexivity | split; [reflexivity |]]]].
  - destruct (rows db !! i) as [r |]; cbn; split; intros H; try reflexivity.
    + eauto.
    + discriminate.
    + destruct H as [? H]. discriminate.
  - intros j Hj. now rewrite lookup_delete_ne by congruence.
Qed.

Lemma delete_removes_row_witness :
  (delete_resource 1 (ResourceService.create 7
      {| c_name := "To Delete"; c_description := None; c_category := None;
         c_status := None |} empty_database).2).1 = true.
Proof.
  apply (delete_removes_row 1). vm_compute. eauto.
Defined.

(** X3. [update] never adds or removes a row; on an id that is not stored it
    resolves with null and changes no row (the UPDATE, if any field is
    supplied, touches nothing). *)
Theorem update_keeps_rows (now i : Z) (resource : UpdateResourceInput) (db : Database) :
  dom (rows (ResourceService.update now i resource db).2) = dom (rows db) /\
  (rows db !! i = None ->
     (ResourceService.update now i resource db).1 = None /\
     rows (ResourceService.update now i resource db).2 = rows db).
Proof.
  unfold ResourceService.update.
  destruct (decide (length (update_fields resource) = 0%nat)).
  - cbn. split; [reflexivity |]. intros ->. auto.
  - cbn. split.
    + apply set_eq. intros j. rewrite !elem_of_dom.
      destruct (decide (j = i)) as [-> | Hne].
      * rewrite lookup_alter_eq. destruct (rows db !! i); cbn; split; intros [? H]; eauto.
      * now rewrite lookup_alter_ne by congruence.
    + intros Hnone. rewrite lookup_alter_eq, Hnone. split; [reflexivity |].
      apply map_eq. intros j. destruct (decide (j = i)) as [-> | Hne].
      * now rewrite lookup_alter_eq, Hnone.
      * now rewrite lookup_alter_ne by congruence.
Qed.

Lemma update_keeps_rows_witness :
  (ResourceService.update 9 99999
     {| u_name := Some "Updated Name"; u_description := None; u_category := None;
        u_status := None |} empty_database).1 = None.
Proof.
  apply (update_keeps_rows 9 99999). reflexivity.
Defined.

Lemma assign_fields_updated_row now resource r :
  foldl (assign now) r (update_fields resource ++ [set_updated_at_now])
  = updated_row now resource r.
Proof.
  destruct resource as [[n |] [d |] [c |] [s |]], r; reflexivity.
Qed.

Lemma update_rows_some now i resource db :
  resource <> no_fields ->
  ResourceService.update now i resource db
  = (updated_row now resource <$> rows db !! i,
     {| rows := alter (updated_row now resource) i (rows db);
        last_id := last_id db;
        journal := (journal db ++ [UPDATE (update_fields resource ++ [set_updated_at_now]) i])
                   ++ [SELECT i] |}).
Proof.
  intros Hne. unfold ResourceService.update.
  destruct (decide (length (update_fields resource) = 0%nat)) as [Hz | Hnz].
  - exfalso. apply Hne.
    destruct resource as [[n |] [d |] [c |] [s |]]; cbn in Hz; try discriminate Hz.
    reflexivity.
  - cbn. unfold ResourceService.getById, get. cbn.
    rewrite lookup_alter_eq.
    assert (Hf : alter (fun r => foldl (assign now) r
                                   (update_fields resource ++ [set_updated_at_now])) i (rows db)
                 = alter (updated_row now resource) i (rows db)).
    { apply map_eq. intros j. destruct (decide (j = i)) as [-> | Hj].
      - rewrite !lookup_alter_eq. destruct (rows db !! i); cbn; [| reflexivity].
        now rewrite assign_fields_updated_row.
      - now rewrite !lookup_alter_ne by congruence. }
    rewrite Hf. f_equal.
    destruct (rows db !! i); cbn; [| reflexivity].
    now rewrite assign_fields_updated_row.
Qed.

Lemma updated_row_merge t1 t2 first second r :
  updated_row t2 second (updated_row t1 first r)
  = updated_row t2 (merge_input first second) r.
Proof.
  unfold updated_row, merge_input. cbn.
  destruct second as [[n |] [d |] [c |] [s |]]; reflexivity.
Qed.

Lemma merge_input_some first second :
  second <> no_fields -> merge_input first second <> no_fields.
Proof.
  intros Hne Heq. apply Hne.
  destruct second as [[n |] [d |] [c |] [s |]]; try discriminate Heq.
  reflexivity.
Qed.

(** X4. Two updates of one id in a row.  When the second supplies a field,
    they leave the table as the one update does that supplies the fields
    of both, those of the second overriding, and they return what it
    returns; when the second supplies none, it returns what the first
    returned and leaves the table as the first left it. *)
Theorem update_twice (t1 t2 i : Z) (first second : UpdateResourceInput) (db : Database) :
  let db1 := (ResourceService.update t1 i first db).2 in
  (second <> no_fields ->
     (ResourceService.update t2 i second db1).1
       = (ResourceService.update t2 i (merge_input first second) db).1 /\
     rows (ResourceService.update t2 i second db1).2
       = rows (ResourceService.update t2 i (merge_input first second) db).2) /\
  (second = no_fields ->
     (ResourceService.update t2 i second db1).1
       = (ResourceService.update t1 i first db).1 /\
     rows (ResourceService.update t2 i second db1).2 = rows db1).
Proof.
  intros db1. split.
  - intros Hne. unfold db1.
    rewrite (update_rows_some t2 i second _ Hne).
    rewrite (update_rows_some t2 i (merge_input first second) db
               (merge_input_some first second Hne)).
    cbn [fst snd rows].
    destruct (decide (first = no_fields)) as [-> | Hf].
    + change (rows (ResourceService.update t1 i no_fields db).2) with (rows db).
      assert (Hm : merge_input no_fields second = second)
        by (destruct second as [[n |] [d |] [c |] [s |]]; reflexivity).
      rewrite Hm. split; reflexivity.
    + rewrite (update_rows_some t1 i first db Hf). cbn [fst snd rows].
      split.
      * rewrite lookup_alter_eq. destruct (rows db !! i); cbn; [| reflexivity].
        now rewrite updated_row_merge.
      * apply map_eq. intros j. destruct (decide (j = i)) as [-> | Hj].
        -- rewrite !lookup_alter_eq. destruct (rows db !! i); cbn; [| reflexivity].
           now rewrite updated_row_merge.
        -- now rewrite !lookup_alter_ne by congruence.
  - intros ->. unfold db1. split; [| reflexivity].
    destruct (decide (first = no_fields)) as [-> | Hf]; [reflexivity |].
    rewrite (update_rows_some t1 i first db Hf).
    rewrite ResourceServiceFacts.update_no_fields.
    unfold ResourceService.getById, get. cbn [fst snd rows].
    now rewrite lookup_alter_eq.
Qed.

Lemma update_twice_witness :
  let db := (ResourceService.create 5
               {| c_name := "Original Name"; c_description := Some "Original Description";
                  c_category := Some "original"; c_status := Some "active" |}
               empty_database).2 in
  let first := {| u_name := Some "A"; u_description := None; u_category := None;
                  u_status := Some "inactive" |} in
  let second := {| u_name := Some "B"; u_description := None; u_category := None;
                   u_status := None |} in
  (ResourceService.update 9 1 second (ResourceService.update 8 1 first db).2).1
  = Some {| id := 1; name := "B"; description := Some "Original Description";
            category := Some "original"; status := Some "inactive";
            created_at := 5; updated_at := 9 |}.
Proof.
  intros db first second.
  destruct (update_twice 8 9 1 first second db) as [H _].
  destruct H as [H _]; [discriminate |].
  rewrite H. reflexivity.
Defined.

End ResourceServiceMore.

Module ResourceControllerFacts.
Import ResourceService.
Import ResourceController.

Lemma assign_id now r a : id (assign now r a) = id r.
Proof. destruct a as [[] v |]; reflexivity. Qed.

Lemma foldl_assign_id now l : forall r, id (foldl (assign now) r l) = id r.
Proof.
  induction l as [| a l IH]; intros r; [reflexivity |].
  cbn. now rewrite IH, assign_id.
Qed.

Lemma get_well_formed i db : well_formed db -> well_formed (get i db).2.
Proof. intros H. exact H. Qed.

Lemma service_update_well_formed now i resource db :
  well_formed db ->
  well_formed (ResourceService.update now i resource db).2 /\
  last_id (ResourceService.update now i resource db).2 = last_id db.
Proof.
  intros [Hpos Hwf].
  destruct (decide (resource = no_fields)) as [-> | Hne].
  - rewrite ResourceServiceFacts.update_no_fields. cbn. split; [split |]; auto.
  - rewrite (ResourceServiceMore.update_rows_some now i resource db Hne).
    cbn [fst snd rows last_id].
    split; [split; [exact Hpos |] | reflexivity]. cbn [rows last_id].
    intros j r Hj. destruct (decide (j = i)) as [-> | Hj'].
    + rewrite lookup_alter_eq in Hj.
      destruct (rows db !! i) as [r0 |] eqn:E; [| discriminate].
      cbn in Hj. injection Hj as <-. cbn [updated_row id]. now apply Hwf.
    + rewrite lookup_alter_ne in Hj by congruence. now apply Hwf.
Qed.

Lemma service_delete_well_formed i db :
  well_formed db ->
  well_formed (delete_resource i db).2 /\
  last_id (delete_resource i db).2 = last_id db.
Proof.
  intros [Hpos Hwf]. unfold delete_resource. cbn [run fst snd rows last_id].
  split; [split; [exact Hpos |] | reflexivity]. cbn [rows last_id].
  intros j r Hj. destruct (decide (j = i)) as [-> | Hne].
  - now rewrite lookup_delete_eq in Hj.
  - rewrite lookup_delete_ne in Hj by congruence. now apply Hwf.
Qed.

Lemma service_create_well_formed now resource db :
  well_formed db ->
  well_formed (ResourceService.create now resource db).2 /\
  last_id (ResourceService.create now resource db).2 = last_id db + 1 /\
  exists r, (ResourceService.create now resource db).1 = Some r /\
            id r = last_id db + 1 /\ name r = c_name resource /\
            rows (ResourceService.create now resource db).2 !! id r = Some r.
Proof.
  intros [Hpos Hwf]. unfold ResourceService.create, get. cbn [run fst snd rows last_id].
  rewrite lookup_insert_eq.
  split; [split; cbn [rows last_id]; [lia |] | split; [reflexivity |]].
  - intros j r0 Hj. destruct (decide (j = last_id db + 1)) as [-> | Hne].
    + rewrite lookup_insert_eq in Hj. injection Hj as <-. cbn. lia.
    + rewrite lookup_insert_ne in Hj by congruence. apply Hwf in Hj. lia.
  - eexists. split; [reflexivity |]. cbn [id name].
    split; [reflexivity |]. split; [reflexivity |]. apply lookup_insert_eq.
Qed.

Lemma service_getById_eq i db :
  ResourceService.getById i db
  = (rows db !! i,
     {| rows := rows db; last_id := last_id db; journal := journal db ++ [SELECT i] |}).
Proof. reflexivity. Qed.

Lemma delete_resource_eq i db :
  delete_resource i db
  = (bool_decide (is_Some (rows db !! i)),
     {| rows := base.delete i (rows db); last_id := last_id db;
        journal := journal db ++ [DELETE i] |}).
Proof.
  unfold delete_resource. cbn [run]. f_equal.
  destruct (rows db !! i); [rewrite !bool_decide_eq_true_2; eauto; lia |].
  rewrite !bool_decide_eq_false_2; [reflexivity | | lia].
  intros [? H]. discriminate.
Qed.

Section Controller.
Variable parseInt : string -> option Z.
Variable trim : string -> string.

(** X7. [POST]: a request without a name, or with a name that is empty or
    trims to the empty string, is answered 400 "Name is required" and the
    database is not touched; any other request is answered 201 with the
    row that was stored, whose name is the name as sent, untrimmed. *)
Theorem create_requires_name (now : Z) (resourceData : CreateBody) (db : Database) :
  (blank_name trim resourceData ->
     create trim now resourceData db
     = ({| code := 400; body := error_body "Name is required" |}, db)) /\
  (~ blank_name trim resourceData -> well_formed db ->
     exists n r,
       b_name resourceData = Some n /\
       (create trim now resourceData db).1
         = {| code := 201;
              body := resource_body (Some r) (Some "Resource created successfully") |} /\
       name r = n /\
       rows db !! id r = None /\
       rows (create trim now resourceData db).2 !! id r = Some r).
Proof using trim.
  clear parseInt. unfold blank_name, create. destruct (b_name resourceData) as [n |].
  - split.
    + intros [-> | Ht]; [reflexivity |].
      rewrite (bool_decide_eq_true_2 (trim n = EmptyString)) by exact Ht.
      now rewrite orb_true_r.
    + intros Hnb Hwf.
      rewrite bool_decide_eq_false_2 by tauto.
      rewrite bool_decide_eq_false_2 by tauto. cbn [orb].
      destruct (service_create_well_formed now
                  {| c_name := n; c_description := b_description resourceData;
                     c_category := b_category resourceData;
                     c_status := b_status resourceData |} db Hwf)
        as (_ & _ & r & Hr & Hid & Hname & Hrow).
      destruct (ResourceService.create now _ db) as [res db'].
      cbn [fst snd] in *. subst res.
      exists n, r. split; [reflexivity |]. split; [reflexivity |].
      split; [exact Hname |]. split; [| exact Hrow].
      destruct Hwf as [_ Hwf]. destruct (rows db !! id r) as [r0 |] eqn:E; [| reflexivity].
      apply Hwf in E. lia.
  - split; [reflexivity |]. intros H. exfalso. now apply H.
Qed.

(** X8. [GET], [PUT] and [DELETE] on one id.  When [parseInt] gives [NaN] the
    answer is 400 "Invalid resource ID" and the database is not touched;
    when the id is not stored it is 404 "Resource not found", no row
    changes, and [GET] and [PUT] send no writing statement. *)
Theorem invalid_or_unknown_id (now : Z) (id : string) (updateData : UpdateResourceInput)
    (db : Database) :
  (parseInt id = None ->
     getById parseInt id db
       = ({| code := 400; body := error_body "Invalid resource ID" |}, db) /\
     update parseInt now id updateData db
       = ({| code := 400; body := error_body "Invalid resource ID" |}, db) /\
     delete parseInt id db
       = ({| code := 400; body := error_body "Invalid resource ID" |}, db)) /\
  (forall i, parseInt id = Some i -> rows db !! i = None ->
     let not_found := {| code := 404; body := error_body "Resource not found" |} in
     (getById parseInt id db).1 = not_found /\
     (update parseInt now id updateData db).1 = not_found /\
     (delete parseInt id db).1 = not_found /\
     rows (getById parseInt id db).2 = rows db /\
     rows (update parseInt now id updateData db).2 = rows db /\
     rows (delete parseInt id db).2 = rows db /\
     filter is_write (journal (getById parseInt id db).2) = filter is_write (journal db) /\
     filter is_write (journal (update parseInt now id updateData db).2)
       = filter is_write (journal db)).
Proof.
  split.
  - intros Hnan. unfold getById, update, delete. rewrite Hnan. auto.
  - intros i Hi Hnone not_found.
    unfold getById, update, delete. rewrite Hi.
    rewrite delete_resource_eq, service_getById_eq, Hnone.
    cbn [fst snd rows journal].
    rewrite filter_app. cbn [filter list_filter is_write]. rewrite app_nil_r.
    rewrite (delete_id _ _ Hnone).
    repeat split; reflexivity.
Qed.

(** X9. [DELETE] of a stored resource answers 200; a [GET] of the same id
    afterwards answers 404, and so does a second [DELETE]. *)
Theorem delete_then_not_found (id : string) (i : Z) (r : Resource) (db : Database) :
  parseInt id = Some i ->
  rows db !! i = Some r ->
  (delete parseInt id db).1
    = {| code := 200; body := message_body "Resource deleted successfully" |} /\
  (getById parseInt id (delete parseInt id db).2).1
    = {| code := 404; body := error_body "Resource not found" |} /\
  (delete parseInt id (delete parseInt id db).2).1
    = {| code := 404; body := error_body "Resource not found" |}.
Proof.
  intros Hi Hr.
  unfold getById, delete. rewrite Hi.
  rewrite (delete_resource_eq i db), Hr.
  rewrite (bool_decide_eq_true_2 (is_Some (Some r))) by eauto.
  cbn [fst snd]. rewrite delete_resource_eq, service_getById_eq.
  cbn [rows]. rewrite lookup_delete_eq.
  rewrite (bool_decide_eq_false_2 (is_Some None)) by (intros [? H]; discriminate).
  auto.
Qed.

(** X10. [PUT] on a stored resource answers 200 "Resource updated
    successfully" with the row as it is stored afterwards: the supplied
    fields replaced, the others kept.  With an empty body the answer is
    the same 200 with the row unchanged, and no writing statement is
    sent. *)
Theorem put_existing (now : Z) (id : string) (i : Z) (updateData : UpdateResourceInput)
    (r : Resource) (db : Database) :
  parseInt id = Some i ->
  rows db !! i = Some r ->
  exists r',
    (update parseInt now id updateData db).1
      = {| code := 200;
           body := resource_body (Some r') (Some "Resource updated successfully") |} /\
    rows (update parseInt now id updateData db).2 !! i = Some r' /\
    patched updateData r r' /\
    (updateData = no_fields ->
       r' = r /\
       filter is_write (journal (update parseInt now id updateData db).2)
         = filter is_write (journal db)) /\
    (updateData <> no_fields -> updated_at r' = now).
Proof.
  intros Hi Hr. unfold update. rewrite Hi, service_getById_eq, Hr.
  destruct (decide (updateData = no_fields)) as [-> | Hne].
  - exists r. rewrite ResourceServiceFacts.update_no_fields, service_getById_eq.
    cbn [fst snd rows journal]. rewrite Hr. rewrite !filter_app.
    cbn [filter list_filter is_write]. rewrite !app_nil_r.
    assert (Hp : patched no_fields r r) by (unfold patched; cbn; auto 10).
    repeat split; auto; try apply Hp. congruence.
  - rewrite (ResourceServiceMore.update_rows_some now i updateData _ Hne).
    cbn [fst snd rows]. rewrite lookup_alter_eq, Hr. cbn [fmap option_fmap option_map].
    exists (updated_row now updateData r).
    split; [reflexivity |]. split; [reflexivity |]. split.
    + unfold patched, updated_row. cbn. auto 10.
    + split; [congruence | reflexivity].
Qed.

Lemma route_well_formed now req db :
  well_formed db ->
  well_formed (route parseInt trim now req db).2 /\
  last_id db <= last_id (route parseInt trim now req db).2 /\
  (forall r m, (route parseInt trim now req db).1
               = {| code := 201; body := resource_body (Some r) m |} ->
     last_id db < id r <= last_id (route parseInt trim now req db).2).
Proof.
  intros Hwf. destruct req as [resourceData | c s n | i | i updateData | i]; cbn [route].
  - unfold create. destruct (b_name resourceData) as [n |].
    + destruct (bool_decide (n = EmptyString) || bool_decide (trim n = EmptyString)).
      * cbn. split; [exact Hwf |]. split; [lia |]. discriminate.
      * destruct (service_create_well_formed now
                    {| c_name := n; c_description := b_description resourceData;
                       c_category := b_category resourceData;
                       c_status := b_status resourceData |} db Hwf)
          as (Hwf' & Hlast & r & Hr & Hid & _).
        destruct (ResourceService.create now _ db) as [res db']. cbn [fst snd] in *.
        split; [exact Hwf' |]. split; [lia |].
        intros r0 m Heq. injection Heq as Heq _. subst res. injection Heq as <-. lia.
    + cbn. split; [exact Hwf |]. split; [lia |]. discriminate.
  - cbn. split; [exact Hwf |]. split; [lia |]. discriminate.
  - unfold getById. destruct (parseInt i) as [k |]; cbn.
    + destruct (rows db !! k); cbn; (split; [exact Hwf |]; split; [lia |]; discriminate).
    + split; [exact Hwf |]. split; [lia |]. discriminate.
  - unfold update. destruct (parseInt i) as [k |]; cbn [fst snd].
    + unfold ResourceService.getById, get. destruct (rows db !! k); cbn [fst snd].
      * destruct (service_update_well_formed now k updateData
                    {| rows := rows db; last_id := last_id db;
                       journal := journal db ++ [SELECT k] |} Hwf) as [Hwf' Hlast].
        destruct (ResourceService.update now k updateData _) as [res db']. cbn [fst snd] in *.
        split; [exact Hwf' |]. split; [cbn in Hlast; lia |]. discriminate.
      * split; [exact Hwf |]. split; [cbn; lia |]. discriminate.
    + split; [exact Hwf |]. split; [lia |]. discriminate.
  - unfold delete. destruct (parseInt i) as [k |]; cbn [fst snd].
    + destruct (service_delete_well_formed k db Hwf) as [Hwf' Hlast].
      destruct (delete_resource k db) as [[] db']; cbn [fst snd] in *;
        (split; [exact Hwf' |]; split; [lia |]; discriminate).
    + split; [exact Hwf |]. split; [lia |]. discriminate.
Qed.

Lemma serve_cons now req rest db :
  serve parseInt trim ((now, req) :: rest) db
  = ((route parseInt trim now req db).1
       :: (serve parseInt trim rest (route parseInt trim now req db).2).1,
     (serve parseInt trim rest (route parseInt trim now req db).2).2).
Proof.
  cbn [serve]. destruct (route parseInt trim now req db) as [res db'].
  cbn [fst snd]. now destruct (serve parseInt trim rest db').
Qed.

Lemma serve_well_formed reqs : forall db,
  well_formed db ->
  well_formed (serve parseInt trim reqs db).2 /\
  last_id db <= last_id (serve parseInt trim reqs db).2 /\
  (forall j r m, (serve parseInt trim reqs db).1 !! j
                 = Some {| code := 201; body := resource_body (Some r) m |} ->
     last_id db < id r) /\
  (forall j k r1 m1 r2 m2, (j < k)%nat ->
     (serve parseInt trim reqs db).1 !! j
       = Some {| code := 201; body := resource_body (Some r1) m1 |} ->
     (serve parseInt trim reqs db).1 !! k
       = Some {| code := 201; body := resource_body (Some r2) m2 |} ->
     id r1 < id r2).
Proof.
  induction reqs as [| [now req] rest IH]; intros db Hwf.
  - cbn. split; [exact Hwf |]. split; [lia |].
    split; intros; rewrite lookup_nil in *; discriminate.
  - rewrite serve_cons. cbn [fst snd].
    destruct (route_well_formed now req db Hwf) as (Hwf1 & Hle1 & Hnew1).
    destruct (IH _ Hwf1) as (Hwf2 & Hle2 & Hnew2 & Hpair2).
    split; [exact Hwf2 |]. split; [lia |]. split.
    + intros [| j] r m Hj; cbn in Hj.
      * injection Hj as Hj. apply Hnew1 in Hj. lia.
      * apply Hnew2 in Hj. lia.
    + intros [| j] [| k] r1 m1 r2 m2 Hjk Hj Hk; try lia; cbn in Hj, Hk.
      * injection Hj as Hj. apply Hnew1 in Hj. apply Hnew2 in Hk. lia.
      * apply (Hpair2 j k r1 m1 r2 m2); auto. lia.
Qed.

(** X11. Whatever requests are served from the empty database, the database
    stays well formed (every row under its own id, no id above the
    counter), and the ids of the resources created, in the order of their
    creation, strictly increase: an id is never given twice, not even
    after its resource was deleted. *)
Theorem created_ids_increase (reqs : Datatypes.list (Z * Request)) :
  well_formed (serve parseInt trim reqs empty_database).2 /\
  (forall j k r1 m1 r2 m2, (j < k)%nat ->
     (serve parseInt trim reqs empty_database).1 !! j
       = Some {| code := 201; body := resource_body (Some r1) m1 |} ->
     (serve parseInt trim reqs empty_database).1 !! k
       = Some {| code := 201; body := resource_body (Some r2) m2 |} ->
     id r1 < id r2).
Proof.
  assert (Hwf : well_formed empty_database).
  { split; cbn; [lia |]. intros i r Hi. rewrite lookup_empty in Hi. discriminate. }
  destruct (serve_well_formed reqs empty_database Hwf) as (H1 & _ & _ & H2).
  split; [exact H1 | exact H2].
Qed.

End Controller.

Lemma seeded_well_formed : well_formed seeded.
Proof.
  split; [cbn; lia |]. intros i r Hi.
  destruct (decide (i = 1)) as [-> | Hne].
  - vm_compute in Hi. injection Hi as <-. cbn. lia.
  - unfold seeded in Hi. cbn in Hi. rewrite lookup_insert_ne in Hi by lia.
    rewrite lookup_empty in Hi. discriminate.
Qed.

Lemma create_requires_name_witness :
  create demo_trim 6
    {| b_name := Some "   "; b_description := None; b_category := None;
       b_status := None |} seeded
  = ({| code := 400; body := error_body "Name is required" |}, seeded) /\
  exists r,
    (create demo_trim 6
       {| b_name := Some "Test Resource"; b_description := None; b_category := None;
          b_status := None |} seeded).1
    = {| code := 201;
         body := resource_body (Some r) (Some "Resource created successfully") |} /\
    name r = "Test Resource".
Proof.
  split.
  - apply (create_requires_name demo_trim 6). right. reflexivity.
  - destruct (create_requires_name demo_trim 6
                {| b_name := Some "Test Resource"; b_description := None;
                   b_category := None; b_status := None |} seeded) as [_ H].
    destruct H as (n & r & Hn & Hres & Hname & _).
    + intros [H | H]; discriminate H.
    + exact seeded_well_formed.
    + exists r. split; [exact Hres |]. cbn in Hn. congruence.
Defined.

Lemma invalid_or_unknown_id_witness :
  getById demo_parseInt "invalid" seeded
    = ({| code := 400; body := error_body "Invalid resource ID" |}, seeded) /\
  (delete demo_parseInt "99999" seeded).1
    = {| code := 404; body := error_body "Resource not found" |}.
Proof.
  destruct (invalid_or_unknown_id demo_parseInt 6 "invalid" no_fields seeded) as [H400 _].
  destruct (invalid_or_unknown_id demo_parseInt 6 "99999" no_fields seeded) as [_ H404].
  split.
  - apply H400. reflexivity.
  - apply (H404 99999); reflexivity.
Defined.

Lemma delete_then_not_found_witness :
  (getById demo_parseInt "1" (delete demo_parseInt "1" seeded).2).1
  = {| code := 404; body := error_body "Resource not found" |}.
Proof.
  eapply (delete_then_not_found demo_parseInt "1" 1); reflexivity.
Defined.

Lemma put_existing_witness :
  exists r',
    (update demo_parseInt 9 "1"
       {| u_name := Some "Updated Name"; u_description := None; u_category := None;
          u_status := None |} seeded).1
    = {| code := 200;
         body := resource_body (Some r') (Some "Resource updated successfully") |} /\
    updated_at r' = 9.
Proof.
  eassert (Hrow : rows seeded !! 1 = Some _) by reflexivity.
  destruct (put_existing demo_parseInt 9 "1" 1
              {| u_name := Some "Updated Name"; u_description := None;
                 u_category := None; u_status := None |} _ seeded eq_refl Hrow)
    as (r' & Hres & _ & _ & _ & Hnow).
  exists r'. split; [exact Hres |]. apply Hnow. discriminate.
Defined.

(** Create, delete, create: the second resource gets the id 2. *)
Lemma created_ids_increase_witness :
  let reqs :=
    [(1, POST {| b_name := Some "A"; b_description := None; b_category := None;
                 b_status := None |});
     (2, DELETE_ "1");
     (3, POST {| b_name := Some "B"; b_description := None; b_category := None;
                 b_status := None |})] in
  exists r1 r2,
    (serve demo_parseInt demo_trim reqs empty_database).1 !! 0%nat
      = Some {| code := 201;
                body := resource_body (Some r1) (Some "Resource created successfully") |} /\
    (serve demo_parseInt demo_trim reqs empty_database).1 !! 2%nat
      = Some {| code := 201;
                body := resource_body (Some r2) (Some "Resource created successfully") |} /\
    id r1 < id r2.
Proof.
  intros reqs.
  destruct (created_ids_increase demo_parseInt demo_trim reqs) as [_ H].
  eexists. eexists.
  split; [vm_compute; reflexivity |]. split; [vm_compute; reflexivity |].
  eapply (H 0%nat 2%nat); [lia | vm_compute; reflexivity | vm_compute; reflexivity].
Defined.

End ResourceControllerFacts.

Module ResourceListFacts.
Import Stdlib.Strings.Ascii.
Import ResourceService.
Import ResourceList.

#[local] Instance listed_before_total : Total listed_before.
Proof.
  intros x y. unfold listed_before.
  destruct (Z.lt_trichotomy (created_at x.2) (created_at y.2)) as [H | [H | H]];
    [right; lia | | left; lia].
  destruct (Z.le_ge_cases x.1 y.1); [left | right]; lia.
Qed.

#[local] Instance listed_before_trans : Transitive listed_before.
Proof. intros x y z. unfold listed_before. lia. Qed.

Lemma listed_before_newer_first l :
  StronglySorted listed_before l -> StronglySorted newer_first (snd <$> l).
Proof.
  induction 1 as [| x l Hs IH Hx]; cbn; constructor; [exact IH |].
  apply Forall_fmap. eapply Forall_impl; [exact Hx |].
  intros y. unfold listed_before, newer_first. cbn. lia.
Qed.

Lemma forallb_app {A} (f : A -> bool) l1 l2 :
  forallb f (l1 ++ l2) = forallb f l1 && forallb f l2.
Proof. induction l1 as [| a l1 IH]; cbn; [reflexivity |]. now rewrite IH, andb_assoc. Qed.

Lemma filter_all {A} (P : A -> Prop) `{forall x, Decision (P x)} (l : Datatypes.list A) :
  (forall x, P x) -> filter P l = l.
Proof.
  intros HP. induction l as [| a l IH]; [reflexivity |].
  rewrite filter_cons_True by apply HP. now rewrite IH.
Qed.

Lemma satisfies_query_matches filters r :
  forallb (satisfies r) (list_query filters) = true <-> matches filters r.
Proof.
  destruct filters as [[c s n] |]; [| cbn; tauto].
  unfold list_query, matches, push_condition. cbn [f_category f_status f_name].
  destruct (truthy c) as [c' |], (truthy s) as [s' |], (truthy n) as [n' |];
    cbn [app forallb satisfies];
    rewrite ?andb_true_iff, ?bool_decide_eq_true;
    split; intros H;
    repeat match goal with
           | H : _ /\ _ |- _ => destruct H
           | |- _ /\ _ => split
           | |- forall x, Some _ = Some _ -> _ => intros ? [= <-]
           | |- forall x, None = Some _ -> _ => intros ? [=]
           end; auto.
Qed.

(** X5. [list] returns exactly the stored rows that satisfy every filter that
    is supplied and not the empty string (a category or a status equal to
    the filter, a name that is [LIKE] the filter between two [%], on
    UTF-8 text); a missing or empty filter restricts nothing.  The rows
    come newest first, and without filter there are as many as the table
    has. *)
Theorem list_returns_matching_rows (filters : option ResourceFilter) (db : Database) :
  (forall r, r ∈ ResourceList.list filters db <->
             (exists i, rows db !! i = Some r) /\ matches filters r) /\
  StronglySorted newer_first (ResourceList.list filters db) /\
  length (ResourceList.list None db) = size (rows db) /\
  ResourceList.list (Some {| f_category := None; f_status := None; f_name := None |}) db
    = ResourceList.list None db /\
  ResourceList.list (Some {| f_category := Some EmptyString; f_status := Some EmptyString;
                             f_name := Some EmptyString |}) db
    = ResourceList.list None db.
Proof.
  split; [| split; [| split; [| split]]].
  - intros r. unfold ResourceList.list. rewrite list_elem_of_fmap.
    rewrite <- satisfies_query_matches. split.
    + intros [[i r0] [-> Hin]].
      rewrite merge_sort_Permutation in Hin.
      apply list_elem_of_filter in Hin as [Hm Hin]. apply elem_of_map_to_list in Hin.
      split; [eauto |]. apply Is_true_true. exact Hm.
    + intros [[i Hi] Hm]. exists (i, r). split; [reflexivity |].
      rewrite merge_sort_Permutation. apply list_elem_of_filter.
      split; [now apply Is_true_true | now apply elem_of_map_to_list].
  - unfold ResourceList.list. apply listed_before_newer_first.
    apply StronglySorted_merge_sort; apply _.
  - unfold ResourceList.list. rewrite length_fmap, merge_sort_Permutation.
    cbn [list_query forallb].
    rewrite filter_all by (intros; exact I).
    apply length_map_to_list.
  - reflexivity.
  - reflexivity.
Qed.

Lemma list_returns_matching_rows_witness :
  let db := (ResourceService.create 2
               {| c_name := "Furniture Item"; c_description := None;
                  c_category := Some "furniture"; c_status := None |}
               (ResourceService.create 1
                  {| c_name := "Electronics Item"; c_description := None;
                     c_category := Some "electronics"; c_status := None |}
                  ResourceController.empty_database).2).2 in
  let filters := Some {| f_category := Some "electronics"; f_status := None;
                         f_name := None |} in
  {| id := 1; name := "Electronics Item"; description := None;
     category := Some "electronics"; status := Some "active";
     created_at := 1; updated_at := 1 |} ∈ ResourceList.list filters db /\
  length (ResourceList.list None db) = 2%nat.
Proof.
  intros db filters.
  destruct (list_returns_matching_rows filters db) as [Hmem _].
  destruct (list_returns_matching_rows None db) as (_ & _ & Hlen & _).
  split.
  - apply Hmem. split.
    + exists 1. reflexivity.
    + repeat split; intros ? [=]; subst; reflexivity.
  - rewrite Hlen. reflexivity.
Defined.

(** Rows created at one instant are listed in the order of their ids. *)
Example list_same_instant :
  let db := (ResourceService.create 1
               {| c_name := "B"; c_description := None; c_category := None;
                  c_status := None |}
               (ResourceService.create 1
                  {| c_name := "A"; c_description := None; c_category := None;
                     c_status := None |}
                  ResourceController.empty_database).2).2 in
  name <$> ResourceList.list None db = ["A"; "B"].
Proof. vm_compute. reflexivity. Qed.

(** *** LIKE *)

Lemma app_cons c s t : String c s +:+ t = String c (s +:+ t).
Proof. reflexivity. Qed.

Lemma app_nil_l_string t : EmptyString +:+ t = t.
Proof. reflexivity. Qed.

Lemma string_app_assoc s t u : (s +:+ t) +:+ u = s +:+ t +:+ u.
Proof. induction s as [| c s IH]; [reflexivity |]. rewrite !app_cons. now rewrite IH. Qed.

Lemma string_app_nil_r s : s +:+ EmptyString = s.
Proof. induction s as [| c s IH]; [reflexivity |]. rewrite app_cons. now rewrite IH. Qed.

Lemma patternCompare_percent seenAll p :
  patternCompare seenAll (String "%" p) = patternCompare true p.
Proof. reflexivity. Qed.

Lemma patternCompare_all s : patternCompare true EmptyString s = true.
Proof. reflexivity. Qed.

Lemma patternCompare_underscore seenAll p s :
  patternCompare seenAll (String "_" p) s
  = match next_char s with
    | Some s' => patternCompare seenAll p s'
    | None => false
    end.
Proof. reflexivity. Qed.

Lemma patternCompare_literal c p s :
  c <> "%"%char -> c <> "_"%char ->
  patternCompare false (String c p) s
  = match s with
    | EmptyString => false
    | String d s' => bool_decide (lower c = lower d) && patternCompare false p s'
    end.
Proof.
  intros H1 H2. cbn [patternCompare]. rewrite decide_False by exact H1.
  rewrite decide_False by exact H2. now destruct s.
Qed.

Lemma patternCompare_search c p s :
  c <> "%"%char -> c <> "_"%char ->
  patternCompare true (String c p) s
  = match s with
    | EmptyString => false
    | String d s' =>
        bool_decide (lower c = lower d) && patternCompare false p s'
        || patternCompare true (String c p) s'
    end.
Proof.
  intros H1 H2. cbn [patternCompare]. rewrite decide_False by exact H1.
  rewrite decide_False by exact H2. now destruct s.
Qed.

(** After a [%] the text is searched for the next character of the
    pattern. *)
Lemma patternCompare_search_iff c p s :
  c <> "%"%char -> c <> "_"%char ->
  (patternCompare true (String c p) s = true <->
   exists pre d rest, s = pre +:+ String d rest /\ lower c = lower d /\
                      patternCompare false p rest = true).
Proof.
  intros H1 H2. induction s as [| e s IH]; rewrite (patternCompare_search c p _ H1 H2).
  - split; [discriminate |]. intros (pre & d & rest & Heq & _).
    destruct pre; discriminate Heq.
  - rewrite orb_true_iff, andb_true_iff, bool_decide_eq_true, IH. split.
    + intros [[Hc H] | (pre & d & rest & -> & Hc & H)].
      * exists EmptyString, e, s. auto.
      * exists (String e pre), d, rest. auto.
    + intros (pre & d & rest & Heq & Hc & H). destruct pre as [| e' pre].
      * left. rewrite app_nil_l_string in Heq. injection Heq as -> ->. auto.
      * right. rewrite app_cons in Heq. injection Heq as -> ->.
        exists pre, d, rest. auto.
Qed.

Lemma like_literal_prefix n : forall p s,
  no_wildcard n = true ->
  (patternCompare false (n +:+ p) s = true <->
   exists mid rest, s = mid +:+ rest /\ lower_string mid = lower_string n /\
                    patternCompare false p rest = true).
Proof.
  induction n as [| c n IH]; intros p s Hn.
  - rewrite app_nil_l_string. split.
    + intros H. exists EmptyString, s. auto.
    + intros (mid & rest & -> & Hl & H). destruct mid; [exact H | discriminate].
  - cbn [no_wildcard] in Hn. rewrite !andb_true_iff, !negb_true_iff in Hn.
    destruct Hn as [[H1 H2] Hn]. apply bool_decide_eq_false in H1, H2.
    rewrite app_cons, (patternCompare_literal c _ s H1 H2).
    destruct s as [| d s].
    + split; [discriminate |]. intros (mid & rest & Heq & Hl & _).
      destruct mid; [discriminate Hl | discriminate Heq].
    + rewrite andb_true_iff, bool_decide_eq_true, (IH p s Hn). split.
      * intros [Hc (mid & rest & -> & Hl & H)].
        exists (String d mid), rest. cbn [lower_string]. rewrite Hl, Hc. auto.
      * intros (mid & rest & Heq & Hl & H). destruct mid as [| e mid]; [discriminate Hl |].
        rewrite app_cons in Heq. injection Heq as -> ->.
        cbn [lower_string] in Hl. injection Hl as Hc Hl.
        split; [congruence |]. exists mid, rest. auto.
Qed.

(** [_] steps over a whole character, of one byte or of several. *)
Example like_underscore_utf8 :
  like "%a_b%" "aéb" = true /\ like "%a_b%" "a€b" = true /\
  like "%a__b%" "aéb" = false /\ like "%__" "€" = false /\ like "%_" "€" = true /\
  like "%É%" "é" = false /\ like "%é%" "café" = true.
Proof. vm_compute. repeat split. Qed.

(** X6. The name filter.  A filter without [%] and [_] finds the names that
    contain it, the case of ASCII letters being ignored.  The filter is
    not escaped: [_] in it stands for any character (the filter "_" finds
    every non-empty name) and [%] for any text (the filter "%" finds every
    name). *)
Theorem name_filter_semantics (n s : string) :
  (no_wildcard n = true ->
     (like ("%" +:+ n +:+ "%") s = true <->
      exists pre mid post, s = pre +:+ mid +:+ post /\ lower_string mid = lower_string n)) /\
  (like ("%" +:+ "_" +:+ "%") s = true <-> s <> EmptyString) /\
  like ("%" +:+ "%" +:+ "%") s = true.
Proof.
  unfold like. split; [| split].
  - intros Hn. rewrite app_cons, app_nil_l_string, patternCompare_percent.
    destruct n as [| c n].
    + rewrite app_nil_l_string. split; [| reflexivity].
      intros _. exists s, EmptyString, EmptyString.
      split; [now rewrite !string_app_nil_r | reflexivity].
    + pose proof Hn as Hn'. cbn [no_wildcard] in Hn'.
      rewrite !andb_true_iff, !negb_true_iff in Hn'.
      destruct Hn' as [[H1 H2] Hn']. apply bool_decide_eq_false in H1, H2.
      rewrite app_cons, (patternCompare_search_iff c _ s H1 H2). split.
      * intros (pre & d & rest & -> & Hc & H).
        apply (like_literal_prefix n "%" rest Hn') in H as (mid & post & -> & Hl & _).
        exists pre, (String d mid), post. split; [reflexivity |].
        cbn [lower_string]. now rewrite Hl, Hc.
      * intros (pre & mid & post & -> & Hl).
        destruct mid as [| d mid]; [discriminate Hl |].
        cbn [lower_string] in Hl. injection Hl as Hc Hl.
        exists pre, d, (mid +:+ post). split; [reflexivity |]. split; [congruence |].
        apply (like_literal_prefix n "%" _ Hn').
        exists mid, post. split; [reflexivity |]. split; [exact Hl | reflexivity].
  - change ("%" +:+ "_" +:+ "%") with (String "%" (String "_" "%")).
    rewrite patternCompare_percent, patternCompare_underscore.
    destruct s as [| c s]; cbn [next_char]; [split; [discriminate | congruence] |].
    split; [discriminate | reflexivity].
  - reflexivity.
Qed.

Lemma name_filter_semantics_witness :
  like ("%" +:+ "electronics" +:+ "%") "Electronics Item" = true.
Proof.
  destruct (name_filter_semantics "electronics" "Electronics Item") as [H _].
  apply H; [reflexivity |].
  exists EmptyString, "Electronics", " Item". split; reflexivity.
Defined.

End ResourceListFacts.

Module ScoreboardMore.
Import JSNumber.
Import JSNumberFacts.
Import Scoreboard.
Import ScoreboardFacts.

(** ** Ranks *)

Lemma zrev_list_NoDup_fst z : NoDup (zrev_list z).*1.
Proof. unfold zrev_list. rewrite merge_sort_Permutation. apply NoDup_fst_map_to_list. Qed.

Lemma zrev_list_find z u s :
  z !! u = Some s ->
  exists i, list_find (fun e => e.1 = u) (zrev_list z) = Some (i, (u, s)) /\
            zrev_list z !! i = Some (u, s).
Proof.
  intros Hz. apply zrev_list_elem in Hz.
  destruct (list_find_elem_of (fun e : string * Z => e.1 = u) (zrev_list z) (u, s) Hz eq_refl)
    as [[i [m s']] Hfind].
  pose proof Hfind as Hf. apply list_find_Some in Hf as (Hi & Hm & _). cbn in Hm. subst m.
  assert (s' = s).
  { apply list_elem_of_lookup_2 in Hi. apply zrev_list_elem in Hi.
    apply zrev_list_elem in Hz. congruence. }
  subst s'. eauto.
Qed.

Lemma ranked_lookup_Some l : forall k i m s,
  l !! i = Some (m, s) ->
  ranked k l !! i = Some {| e_userId := m; e_score := s; e_rank := k + Z.of_nat i + 1 |}.
Proof.
  induction l as [| [m0 s0] l IH]; intros k i m s Hi; [discriminate |].
  destruct i as [| i].
  - cbn in Hi. injection Hi as -> ->. cbn. do 2 f_equal. lia.
  - change (l !! i = Some (m, s)) in Hi.
    change (ranked (k + 1) l !! i
            = Some {| e_userId := m; e_score := s; e_rank := k + Z.of_nat (S i) + 1 |}).
    rewrite (IH (k + 1) i m s Hi). do 2 f_equal. lia.
Qed.

Lemma updateUserScore_eq userId scoreToAdd w :
  updateUserScore userId scoreToAdd w
  = (Return {| newScore := round53 (totalScore userId w + scoreToAdd);
               newRank := (fun r => r + 1) <$>
                 ((fun r => Z.of_nat r.1) <$>
                    list_find (fun e => e.1 = userId)
                      (zrev_list (<[userId := round53 (totalScore userId w + scoreToAdd)]>
                                    (zset_of leaderboard_key w)))) |},
     received (ZREVRANK leaderboard_key userId)
       (with_zsets <[leaderboard_key :=
                       <[userId := round53 (totalScore userId w + scoreToAdd)]>
                         (zset_of leaderboard_key w)]>
          (received (ZINCRBY leaderboard_key scoreToAdd userId) w))).
Proof.
  unfold updateUserScore, bind, redis_zincrby, redis_zrevrank, ret, totalScore.
  cbn [fst snd parseInt]. rewrite zset_of_insert.
  rewrite fmap_insert, zset_of_round.
  now rewrite (round53_idem (default 0 (zset_of leaderboard_key w !! userId) + scoreToAdd)).
Qed.

Lemma updateUserScore_index userId scoreToAdd w :
  let z' := zset_of leaderboard_key (updateUserScore userId scoreToAdd w).2 in
  let score := round53 (totalScore userId w + scoreToAdd) in
  exists i : nat,
    (updateUserScore userId scoreToAdd w).1
      = Return {| newScore := score; newRank := Some (Z.of_nat i + 1) |} /\
    zrev_list z' !! i = Some (userId, score) /\
    z' !! userId = Some score.
Proof.
  intros z' score.
  assert (Hz' : z' = <[userId := score]> (zset_of leaderboard_key w)).
  { unfold z'. rewrite updateUserScore_zset. reflexivity. }
  assert (Hlook : z' !! userId = Some score).
  { rewrite Hz'. apply lookup_insert_eq. }
  destruct (zrev_list_find z' userId _ Hlook) as (i & Hfind & Hi).
  exists i. split; [| split; [exact Hi | exact Hlook]].
  rewrite updateUserScore_eq. cbn [fst]. fold score. rewrite <- Hz', Hfind. reflexivity.
Qed.

(** X12. For a new score of magnitude up to 2^53, [updateUserScore] answers
    the user's score (0 for a new member) plus [scoreToAdd], and never a
    null rank: the new rank is a number between 1 and the number of
    members, and the user with the new score stands at that position of
    the leaderboard.  Redis receives [ZINCRBY] and then [ZREVRANK],
    nothing else. *)
Theorem updateUserScore_rank (userId : string) (scoreToAdd : Z) (w : World) :
  Z.abs (totalScore userId w + scoreToAdd) <= 2 ^ 53 ->
  let w' := (updateUserScore userId scoreToAdd w).2 in
  let z' := zset_of leaderboard_key w' in
  exists rank,
    (updateUserScore userId scoreToAdd w).1
      = Return {| newScore := totalScore userId w + scoreToAdd; newRank := Some rank |} /\
    1 <= rank <= Z.of_nat (size z') /\
    zrev_list z' !! Z.to_nat (rank - 1) = Some (userId, totalScore userId w + scoreToAdd) /\
    z' !! userId = Some (totalScore userId w + scoreToAdd) /\
    commands w' = commands w ++ [ZINCRBY leaderboard_key scoreToAdd userId;
                                 ZREVRANK leaderboard_key userId].
Proof.
  intros Hsafe w' z'.
  destruct (updateUserScore_index userId scoreToAdd w) as (i & Hres & Hi & Hlook).
  rewrite (round53_le_2_53 _ Hsafe) in Hres, Hi, Hlook.
  fold w' z' in Hi, Hlook.
  exists (Z.of_nat i + 1).
  split; [exact Hres |]. split; [| split; [| split]].
  - apply lookup_lt_Some in Hi. rewrite zrev_list_length in Hi. lia.
  - replace (Z.to_nat (Z.of_nat i + 1 - 1)) with i by lia. exact Hi.
  - exact Hlook.
  - unfold w'. rewrite updateUserScore_eq. cbn. now rewrite <- app_assoc.
Qed.

(** A new member with 55 points among the eleven users. *)
Lemma updateUserScore_rank_witness :
  exists rank,
    (updateUserScore "u12" 55 (apply_all eleven_users empty_world)).1
      = Return {| newScore := 55; newRank := Some rank |} /\
    1 <= rank <= 12.
Proof.
  destruct (updateUserScore_rank "u12" 55 (apply_all eleven_users empty_world))
    as (rank & Hres & Hb & _); [vm_compute; discriminate |].
  exists rank. split; [exact Hres |].
  replace 12 with (Z.of_nat (size (zset_of leaderboard_key
            (updateUserScore "u12" 55 (apply_all eleven_users empty_world)).2)))
    by (vm_compute; reflexivity).
  exact Hb.
Defined.

Lemma getLeaderboard_commands_irrelevant limit w w' :
  zsets w' = zsets w -> (getLeaderboard limit w').1 = (getLeaderboard limit w).1.
Proof.
  intros Hz. unfold getLeaderboard, bind, redis_zrevrange_withscores, ret, zset_of.
  cbn [fst]. now rewrite Hz.
Qed.

(** X13. After [updateUserScore], [getLeaderboard(limit)] (with a positive
    limit) shows the user exactly when the rank answered is at most the
    limit, and then at the position of that rank, with the score and the
    rank that [updateUserScore] answered. *)
Theorem updated_user_on_leaderboard (userId : string) (scoreToAdd limit : Z) (w : World)
    (s rank : Z) :
  0 < limit ->
  (updateUserScore userId scoreToAdd w).1
    = Return {| newScore := s; newRank := Some rank |} ->
  exists top,
    (getLeaderboard limit (updateUserScore userId scoreToAdd w).2).1 = Return top /\
    (rank <= limit ->
       top !! Z.to_nat (rank - 1)
         = Some {| e_userId := userId; e_score := s; e_rank := rank |}) /\
    (limit < rank -> forall e, e ∈ top -> e_userId e <> userId).
Proof.
  intros Hlimit Hres.
  destruct (updateUserScore_index userId scoreToAdd w) as (i0 & Hres' & Hpos & _).
  rewrite Hres in Hres'. injection Hres' as -> ->.
  set (rank' := Z.of_nat i0 + 1) in *.
  replace i0 with (Z.to_nat (rank' - 1)) in Hpos by (unfold rank'; lia).
  assert (Hbound : 1 <= rank') by (unfold rank'; lia).
  set (w' := (updateUserScore userId scoreToAdd w).2) in *.
  set (z' := zset_of leaderboard_key w') in *.
  exists (ranked 0 (take (Z.to_nat limit) (zrev_list z'))).
  split; [apply getLeaderboard_eq; exact Hlimit |]. split.
  - intros Hle.
    assert (Htake : take (Z.to_nat limit) (zrev_list z') !! Z.to_nat (rank' - 1)
                    = Some (userId, round53 (totalScore userId w + scoreToAdd))).
    { rewrite lookup_take_lt by lia. exact Hpos. }
    rewrite (ranked_lookup_Some _ 0 _ _ _ Htake). do 2 f_equal. lia.
  - intros Hgt e He Huser.
    apply list_elem_of_lookup in He as [i Hi].
    pose proof (lookup_lt_Some _ _ _ Hi) as Hlen. rewrite ranked_length in Hlen.
    apply ranked_lookup in Hi as [_ Hi].
    rewrite length_take in Hlen.
    rewrite lookup_take_lt in Hi by lia.
    rewrite Huser in Hi.
    assert (Hsame : i = Z.to_nat (rank' - 1)).
    { eapply (NoDup_lookup _ _ _ userId (zrev_list_NoDup_fst z')).
      - rewrite list_lookup_fmap, Hi. reflexivity.
      - rewrite list_lookup_fmap, Hpos. reflexivity. }
    lia.
Qed.

Lemma updated_user_on_leaderboard_witness :
  let w := apply_all eleven_users empty_world in
  exists top,
    (getLeaderboard 10 (updateUserScore "u11" 95 w).2).1 = Return top /\
    top !! 1%nat = Some {| e_userId := "u11"; e_score := 105; e_rank := 2 |}.
Proof.
  intros w.
  destruct (updated_user_on_leaderboard "u11" 95 10 w 105 2) as (top & Htop & Hin & _).
  - lia.
  - vm_compute. reflexivity.
  - exists top. split; [exact Htop |]. apply Hin. lia.
Defined.

(** *** A gain never costs a rank *)

#[local] Instance zrev_le_antisym : AntiSymm (=) zrev_le.
Proof.
  intros [m1 s1] [m2 s2]. unfold zrev_le. cbn.
  intros [H1 | [H1 L1]] [H2 | [H2 L2]]; try lia.
  f_equal; [| lia]. now apply (anti_symm String.le).
Qed.

Lemma filter_none {A} (P : A -> Prop) `{forall x, Decision (P x)} (l : list A) :
  (forall x, x ∈ l -> ~ P x) -> filter P l = [].
Proof.
  induction l as [| a l IH]; intros Hn; [reflexivity |].
  rewrite filter_cons_False by (apply Hn; left).
  apply IH. intros x Hx. apply Hn. now right.
Qed.

(** In a sorted list without repetition, the position of an element is
    the number of the elements read before it. *)
Lemma sorted_index_count (l : list (string * Z)) : forall i x,
  StronglySorted zrev_le l -> NoDup l -> l !! i = Some x ->
  i = length (filter (fun y => zrev_le y x /\ y <> x) l).
Proof.
  induction l as [| a l IH]; intros i x Hs Hnd Hi; [discriminate |].
  apply StronglySorted_inv in Hs as [Hs Hhd].
  apply NoDup_cons in Hnd as [Ha Hnd].
  destruct i as [| i].
  - cbn in Hi. injection Hi as ->.
    rewrite filter_cons_False by tauto.
    assert (Hnone : filter (fun y => zrev_le y x /\ y <> x) l = []).
    { apply filter_none. intros y Hy [Hle Hne].
      apply Hne. apply (anti_symm zrev_le); [exact Hle |].
      rewrite Forall_forall in Hhd. now apply Hhd. }
    now rewrite Hnone.
  - change (l !! i = Some x) in Hi.
    assert (Hin : x ∈ l) by (eapply list_elem_of_lookup_2; eauto).
    rewrite filter_cons_True.
    + cbn. f_equal. now apply IH.
    + split; [rewrite Forall_forall in Hhd; now apply Hhd |]. intros ->. contradiction.
Qed.

Lemma filter_length_mono {A} (P Q : A -> Prop)
    `{forall x, Decision (P x)} `{forall x, Decision (Q x)} (l : list A) :
  (forall x, x ∈ l -> P x -> Q x) ->
  (length (filter P l) <= length (filter Q l))%nat.
Proof.
  induction l as [| a l IH]; intros Himp; [cbn; lia |].
  assert (IH' : (length (filter P l) <= length (filter Q l))%nat).
  { apply IH. intros x Hx. apply Himp. now right. }
  destruct (decide (P a)) as [Hp | Hp].
  - rewrite (filter_cons_True P) by exact Hp.
    rewrite (filter_cons_True Q) by (apply Himp; [left | exact Hp]). cbn. lia.
  - rewrite (filter_cons_False P) by exact Hp.
    destruct (decide (Q a)).
    + rewrite (filter_cons_True Q) by assumption. cbn. lia.
    + rewrite (filter_cons_False Q) by assumption. lia.
Qed.

(** The position of a member in the leaderboard, counted on the other
    members. *)
Lemma zrev_index_count z u s i :
  z !! u = Some s ->
  zrev_list z !! i = Some (u, s) ->
  i = length (filter (fun y => zrev_le y (u, s) /\ y <> (u, s))
                     (map_to_list (base.delete u z))).
Proof.
  intros Hz Hi.
  assert (Hnd : NoDup (zrev_list z)).
  { unfold zrev_list. rewrite merge_sort_Permutation. apply NoDup_map_to_list. }
  rewrite (sorted_index_count _ i (u, s) (zrev_list_sorted z) Hnd Hi).
  unfold zrev_list. rewrite merge_sort_Permutation.
  rewrite <- (map_to_list_delete z u s Hz).
  rewrite filter_cons_False by tauto. reflexivity.
Qed.

(** X14. For a member of the leaderboard, a score that does not decrease
    never gives a worse rank, and a score that does not increase never
    gives a better one: [newRank] is at most, respectively at least, the
    rank [ZREVRANK] gave before plus one. *)
Theorem score_gain_never_costs_rank (userId : string) (scoreToAdd : Z) (w : World)
    (rank0 s rank1 : Z) :
  (redis_zrevrank leaderboard_key userId w).1 = Return (Some rank0) ->
  (updateUserScore userId scoreToAdd w).1
    = Return {| newScore := s; newRank := Some rank1 |} ->
  (0 <= scoreToAdd -> rank1 <= rank0 + 1) /\
  (scoreToAdd <= 0 -> rank0 + 1 <= rank1).
Proof.
  intros Hbefore Hafter.
  set (z := zset_of leaderboard_key w).
  unfold redis_zrevrank in Hbefore. cbn [fst] in Hbefore. fold z in Hbefore.
  destruct (list_find (fun e => e.1 = userId) (zrev_list z)) as [[i0 [m s0]] |] eqn:Hfind;
    [| discriminate].
  cbn in Hbefore. injection Hbefore as <-.
  apply list_find_Some in Hfind as (Hi0 & Hm & _). cbn in Hm. subst m.
  assert (Hz : z !! userId = Some s0).
  { apply zrev_list_elem. eapply list_elem_of_lookup_2; eauto. }
  destruct (updateUserScore_index userId scoreToAdd w) as (i1 & Hres & Hi1 & Hz1).
  rewrite Hafter in Hres. injection Hres as -> ->.
  rewrite updateUserScore_zset in Hi1, Hz1. fold z in Hi1, Hz1.
  assert (Htotal : totalScore userId w = s0) by (unfold totalScore; fold z; now rewrite Hz).
  rewrite Htotal in *.
  pose proof (zrev_index_count z userId s0 i0 Hz Hi0) as Hc0.
  pose proof (zrev_index_count _ userId (round53 (s0 + scoreToAdd)) i1 Hz1 Hi1) as Hc1.
  rewrite delete_insert_eq in Hc1.
  assert (Hd0 : is_double s0) by (eapply zset_of_double; exact Hz).
  assert (Hup : 0 <= scoreToAdd -> s0 <= round53 (s0 + scoreToAdd))
    by (intros; apply round53_lower; [exact Hd0 | lia]).
  assert (Hdown : scoreToAdd <= 0 -> round53 (s0 + scoreToAdd) <= s0)
    by (intros; apply round53_upper; [exact Hd0 | lia]).
  set (s1 := round53 (s0 + scoreToAdd)) in *.
  assert (Hother : forall y, y ∈ map_to_list (base.delete userId z) -> y.1 <> userId).
  { intros [m sc] Hy Heq. cbn in Heq. subst m.
    apply elem_of_map_to_list in Hy. now rewrite lookup_delete_eq in Hy. }
  split; intros Hd.
  - assert (Hle : (i1 <= i0)%nat).
    { rewrite Hc0, Hc1. apply filter_length_mono.
      intros [m sc] Hy [Hle _]. specialize (Hother _ Hy). cbn in Hother.
      split; [| congruence]. unfold zrev_le in *. cbn in *.
      specialize (Hup Hd).
      destruct Hle as [Hlt | [Heq Hs]]; [left; lia |].
      destruct (decide (sc = s0)); [right; split; [lia | exact Hs] | left; lia]. }
    lia.
  - assert (Hle : (i0 <= i1)%nat).
    { rewrite Hc0, Hc1. apply filter_length_mono.
      intros [m sc] Hy [Hle _]. specialize (Hother _ Hy). cbn in Hother.
      split; [| congruence]. unfold zrev_le in *. cbn in *.
      specialize (Hdown Hd).
      destruct Hle as [Hlt | [Heq Hs]]; [left; lia |].
      destruct (decide (sc = s1)); [right; split; [lia | exact Hs] | left; lia]. }
    lia.
Qed.

Lemma score_gain_never_costs_rank_witness :
  let w := apply_all eleven_users empty_world in
  (redis_zrevrank leaderboard_key "u11" w).1 = Return (Some 10) /\
  (updateUserScore "u11" 95 w).1 = Return {| newScore := 105; newRank := Some 2 |} /\
  2 <= 10 + 1.
Proof.
  intros w.
  assert (H0 : (redis_zrevrank leaderboard_key "u11" w).1 = Return (Some 10))
    by (vm_compute; reflexivity).
  assert (H1 : (updateUserScore "u11" 95 w).1
               = Return {| newScore := 105; newRank := Some 2 |})
    by (vm_compute; reflexivity).
  destruct (score_gain_never_costs_rank "u11" 95 w 10 105 2 H0 H1) as [H _].
  split; [exact H0 |]. split; [exact H1 |]. apply H. lia.
Defined.

(** *** The limit of [getLeaderboard] *)





(** ** The rate limit *)

Lemma window_results_lookup times : forall n k r,
  window_results n times !! k = Some r ->
  r = if decide (n + Z.of_nat k + 1 > 10) then Throw RateLimitError else Return tt.
Proof.
  induction times as [| t rest IH]; intros n k r Hk; [discriminate |].
  destruct k as [| k]; cbn in Hk.
  - injection Hk as <-. now replace (n + Z.of_nat 0 + 1) with (n + 1) by lia.
  - apply IH in Hk. subst r.
    now replace (n + 1 + Z.of_nat k + 1) with (n + Z.of_nat (S k) + 1) by lia.
Qed.

Lemma rateLimit_all_cons userId t rest w :
  rateLimit_all userId (t :: rest) w
  = ((rateLimit userId t w).1 :: (rateLimit_all userId rest (rateLimit userId t w).2).1,
     (rateLimit_all userId rest (rateLimit userId t w).2).2).
Proof.
  cbn [rateLimit_all]. destruct (rateLimit userId t w) as [r w1]. cbn [fst snd].
  now destruct (rateLimit_all userId rest w1).
Qed.

(** X16. The window is fixed.  Of the submissions a user makes within the 60 s
    that follow the first (the 60th second included: the counter exists up
    to its expiry instant), the first ten are allowed and all the others
    are denied, however many they are; the denied ones are counted but do
    not move the end of the window; and the first submission after the end
    of the window is allowed and opens a new window of 60 s. *)
Theorem rate_limit_fixed_window (userId : string) (t0 next : Z) (later : list Z) (w : World) :
  live t0 (rate_limit_key userId) w = None ->
  Forall (fun t => t0 <= t <= t0 + 60000) later ->
  t0 + 60000 < next ->
  let run := rateLimit_all userId (t0 :: later) w in
  (forall k r, run.1 !! k = Some r ->
     (k < 10)%nat /\ r = Return tt \/ (10 <= k)%nat /\ r = Throw RateLimitError) /\
  kv run.2 !! rate_limit_key userId
    = Some (VInt (1 + Z.of_nat (length later)), Some (t0 + 60000)) /\
  (rateLimit userId next run.2).1 = Return tt /\
  kv (rateLimit userId next run.2).2 !! rate_limit_key userId
    = Some (VInt 1, Some (next + 60000)).
Proof.
  intros Hlive Hwin Hnext run.
  destruct (rateLimit_first userId t0 w Hlive) as (Hr0 & Hk0 & _).
  assert (Hwin' : Forall (fun t => t <= t0 + 60 * 1000) later).
  { eapply Forall_impl; [exact Hwin |]. cbn. intros; lia. }
  destruct (rateLimit_all_window userId later (rateLimit userId t0 w).2 1 _ Hk0
              ltac:(lia) Hwin') as (Hrs & Hk & _).
  unfold run. rewrite rateLimit_all_cons. cbn [fst snd].
  assert (Hexpired : live next (rate_limit_key userId)
                       (rateLimit_all userId later (rateLimit userId t0 w).2).2 = None).
  { unfold live. rewrite Hk.
    now replace (next <=? t0 + 60 * 1000) with false by (symmetry; apply Z.leb_gt; lia). }
  destruct (rateLimit_first userId next _ Hexpired) as (Hrn & Hkn & _).
  split; [| split; [exact Hk | split; [exact Hrn | exact Hkn]]].
  intros [| k] r Hkr; cbn in Hkr.
  - injection Hkr as <-. left. split; [lia | exact Hr0].
  - rewrite Hrs in Hkr. apply window_results_lookup in Hkr. subst r.
    destruct (decide (1 + Z.of_nat k + 1 > 10)); [right | left]; split; auto; lia.
Qed.

Lemma rate_limit_fixed_window_witness :
  let later := [1000; 2000; 3000; 4000; 5000; 6000; 7000; 8000; 9000; 10000; 11000;
                60000] in
  (rateLimit_all "user-123" (0 :: later) empty_world).1 !! 12%nat
    = Some (Throw RateLimitError) /\
  (rateLimit "user-123" 60001
     (rateLimit_all "user-123" (0 :: later) empty_world).2).1 = Return tt.
Proof.
  intros later.
  destruct (rate_limit_fixed_window "user-123" 0 60001 later empty_world)
    as (Hres & _ & Hnext & _).
  - reflexivity.
  - unfold later. repeat constructor; lia.
  - lia.
  - split; [vm_compute; reflexivity | exact Hnext].
Defined.

Lemma rate_limit_key_inj u u' : rate_limit_key u = rate_limit_key u' -> u = u'.
Proof. unfold rate_limit_key. apply (inj (String.app "rate_limit:")). Qed.

Lemma redis_expire_returns now key seconds w :
  exists b, (redis_expire now key seconds w).1 = Return b.
Proof. unfold redis_expire. destruct (live now key w); cbn; eauto. Qed.

Lemma rateLimit_after_incr userId now current w1 :
  ((do_ (if decide (current = 1)
         then do_ redis_expire now (rate_limit_key userId) 60; ret tt else ret tt);
    if decide (current > 10) then throw RateLimitError else ret tt) w1).1
  = if decide (current > 10) then Throw RateLimitError else Return tt.
Proof.
  unfold bind. destruct (decide (current = 1)).
  - destruct (redis_expire_returns now (rate_limit_key userId) 60 w1) as [b Hb].
    destruct (redis_expire now (rate_limit_key userId) 60 w1) as [o w2].
    cbn [fst] in Hb. subst o. cbn. destruct (decide (current > 10)); reflexivity.
  - cbn. destruct (decide (current > 10)); reflexivity.
Qed.

Lemma rateLimit_result userId now w :
  (rateLimit userId now w).1
  = match live now (rate_limit_key userId) w with
    | None => Return tt
    | Some (VInt n) => if decide (n + 1 > 10) then Throw RateLimitError else Return tt
    | Some (VStr _) => Throw RedisError
    end.
Proof.
  unfold rateLimit. unfold bind at 1. unfold redis_incr.
  destruct (live now (rate_limit_key userId) w) as [[s | n] |].
  - reflexivity.
  - apply rateLimit_after_incr.
  - rewrite rateLimit_after_incr. now rewrite decide_False by lia.
Qed.

Lemma redis_incr_other now key key' w :
  key' <> key -> kv (redis_incr now key w).2 !! key' = kv w !! key'.
Proof.
  intros Hne. unfold redis_incr.
  destruct (live now key w) as [[s | n] |]; cbn; [reflexivity | |];
    now rewrite lookup_insert_ne by congruence.
Qed.

Lemma redis_expire_other now key seconds key' w :
  key' <> key -> kv (redis_expire now key seconds w).2 !! key' = kv w !! key'.
Proof.
  intros Hne. unfold redis_expire.
  destruct (live now key w); cbn; [| reflexivity].
  now rewrite lookup_insert_ne by congruence.
Qed.

Lemma rateLimit_other userId now key' w :
  key' <> rate_limit_key userId ->
  kv (rateLimit userId now w).2 !! key' = kv w !! key'.
Proof.
  intros Hne. unfold rateLimit, bind.
  pose proof (redis_incr_other now (rate_limit_key userId) key' w Hne) as Hi.
  destruct (redis_incr now (rate_limit_key userId) w) as [[current | e] w1];
    cbn [fst snd] in *; [| exact Hi].
  destruct (decide (current = 1)).
  - pose proof (redis_expire_other now (rate_limit_key userId) 60 key' w1 Hne) as He.
    destruct (redis_expire now (rate_limit_key userId) 60 w1) as [[b | e'] w2];
      cbn [fst snd] in *.
    + destruct (decide (current > 10)); cbn; congruence.
    + congruence.
  - cbn. destruct (decide (current > 10)); cbn; exact Hi.
Qed.

(** X17. The counters of two users are apart: what the rate limit answers a
    user does not depend on the submissions of another user (allowed or
    denied), which leave the user's counter as it is. *)
Theorem rate_limit_per_user (userId other : string) (t t' : Z) (w : World) :
  other <> userId ->
  (rateLimit userId t' (rateLimit other t w).2).1 = (rateLimit userId t' w).1 /\
  kv (rateLimit other t w).2 !! rate_limit_key userId = kv w !! rate_limit_key userId.
Proof.
  intros Hne.
  assert (Hk : kv (rateLimit other t w).2 !! rate_limit_key userId
               = kv w !! rate_limit_key userId).
  { apply rateLimit_other. intros Heq. apply rate_limit_key_inj in Heq. congruence. }
  split; [| exact Hk].
  rewrite !rateLimit_result. unfold live. now rewrite Hk.
Qed.

Lemma rate_limit_per_user_witness :
  let w := (rateLimit_all "bob" [0; 1; 2; 3; 4; 5; 6; 7; 8; 9] empty_world).2 in
  (rateLimit "alice" 11 (rateLimit "bob" 10 w).2).1 = Return tt.
Proof.
  intros w.
  destruct (rate_limit_per_user "alice" "bob" 10 11 w) as [H _]; [discriminate |].
  rewrite H. vm_compute. reflexivity.
Defined.

(** ** Validation *)

Lemma append_assoc s t u : (s +:+ t) +:+ u = s +:+ t +:+ u.
Proof.
  induction s as [| c s IH]; [reflexivity |].
  change (String c ((s +:+ t) +:+ u) = String c (s +:+ t +:+ u)). now rewrite IH.
Qed.

Lemma append_self x y : x = x +:+ y -> y = EmptyString.
Proof.
  induction x as [| c x IH]; intros H.
  - now symmetry.
  - apply IH. change (String c x = String c (x +:+ y)) in H. now injection H.
Qed.

Section Validation.
Context `{cfg : Config}.

Lemma validate_kv_other userId a now key w :
  key <> action_key (actionId a) ->
  kv (validate userId a now w).2 !! key = kv w !! key.
Proof.
  intros Hne. destruct (passes (checks_at userId a now w)) eqn:Hp.
  - destruct (validate_accept userId a now w Hp) as (_ & Hkv & _).
    rewrite Hkv. now rewrite lookup_insert_ne by congruence.
  - now rewrite (validate_reject userId a now w Hp).
Qed.

(** X18. The consumed marker.  An accepted validation stores the key
    [action:<actionId>] with the value "used" and the expiry instant
    [now + 3600000]: the marker is found up to and including that instant
    and no longer after it.  [EXISTS] is the first command Redis receives
    and the [SETEX] of the marker the last: the action is marked after
    whatever the award sends.  A refused validation sends [EXISTS] and
    nothing else, and leaves the keys and the sorted sets as they are.  No
    validation touches the key of another action. *)
Theorem validate_marks_action (userId : string) (a : Action) (now : Z) (w : World) :
  let key := action_key (actionId a) in
  let w' := (validate userId a now w).2 in
  (passes (checks_at userId a now w) = true ->
     kv w' !! key = Some (VStr "used", Some (now + 3600000)) /\
     (forall t, t <= now + 3600000 -> live t key w' = Some (VStr "used")) /\
     (forall t, now + 3600000 < t -> live t key w' = None) /\
     (exists cs, commands w'
                 = commands w ++ EXISTS key :: cs ++ [SETEX key 3600 "used"])) /\
  (passes (checks_at userId a now w) = false ->
     (validate userId a now w).1 = Return false /\
     kv w' = kv w /\ zsets w' = zsets w /\
     commands w' = commands w ++ [EXISTS key]) /\
  (forall key', key' <> key -> kv w' !! key' = kv w !! key').
Proof.
  intros key w'. split; [| split].
  - intros Hp.
    destruct (validate_accept userId a now w Hp) as (_ & Hkv & _).
    fold w' key in Hkv.
    split; [| split; [| split]].
    + rewrite Hkv. apply lookup_insert_eq.
    + intros t Ht. unfold w', key. rewrite (live_after_accept userId a now w t Hp).
      now replace (t <=? now + 3600 * 1000) with true by (symmetry; apply Z.leb_le; lia).
    + intros t Ht. unfold w', key. rewrite (live_after_accept userId a now w t Hp).
      now replace (t <=? now + 3600 * 1000) with false by (symmetry; apply Z.leb_gt; lia).
    + unfold w', validate, bind. rewrite validate_checks_eq. unfold validate_commit.
      unfold passes in Hp. rewrite Hp.
      exists [ZINCRBY leaderboard_key (expectedScore (actionType a)) userId;
              ZREVRANK leaderboard_key userId].
      cbn. now rewrite <- !app_assoc.
  - intros Hp. unfold w'. rewrite (validate_reject userId a now w Hp). auto.
  - intros key' Hne. now apply validate_kv_other.
Qed.

(** X19. The message that is signed is the plain concatenation
    [actionId + userId + actionType + timestamp], so a signature does not
    tell where [actionId] ends and [userId] begins.  The signature issued
    to user [z] for the action [x ++ y] is the signature of the action [x]
    for the user [y ++ z]: when [y] is not empty, the two submissions carry
    different action ids, and both are awarded. *)
Theorem one_signature_two_awards (x y z type sig : string) (ts now : Z) (w : World) :
  let a1 := {| actionId := x +:+ y; actionType := type; timestamp := ts;
               signature := sig |} in
  let a2 := {| actionId := x; actionType := type; timestamp := ts; signature := sig |} in
  y <> EmptyString ->
  valid_signature z a1 ->
  now - ts < 600000 ->
  live now (action_key (x +:+ y)) w = None ->
  live now (action_key x) w = None ->
  valid_signature (y +:+ z) a2 /\
  (validate z a1 now w).1 = Return true /\
  (validate (y +:+ z) a2 now (validate z a1 now w).2).1 = Return true.
Proof.
  intros a1 a2 Hy Hsig Hexp Hl1 Hl2.
  assert (Hsig2 : valid_signature (y +:+ z) a2).
  { unfold valid_signature, expectedSignature in *.
    cbn [actionId actionType timestamp signature a1 a2] in *.
    rewrite !append_assoc in Hsig |- *. exact Hsig. }
  assert (Hp1 : passes (checks_at z a1 now w) = true).
  { unfold passes, checks_at. cbn. unfold valid_signature in Hsig. cbn in Hsig.
    rewrite Hsig, Hl1. rewrite bool_decide_eq_true_2 by exact Hexp.
    rewrite bool_decide_eq_false_2; [reflexivity |]. intros [? H]. discriminate. }
  split; [exact Hsig2 |]. split; [now apply validate_accept |].
  rewrite validate_returns. f_equal. unfold passes, checks_at.
  cbn [isValidSignature isNotExpired isNotUsed actionId timestamp signature a2].
  unfold valid_signature in Hsig2. cbn in Hsig2. rewrite Hsig2.
  rewrite bool_decide_eq_true_2 by exact Hexp.
  assert (Hl : live now (action_key x) (validate z a1 now w).2 = None).
  { unfold live. rewrite validate_kv_other; [exact Hl2 |].
    cbn. intros Heq. apply action_key_inj in Heq. apply Hy.
    now apply (append_self x y). }
  rewrite Hl. rewrite bool_decide_eq_false_2; [reflexivity |]. intros [? H]. discriminate.
Qed.

(** X20. Actions are apart: the validation of one action, accepted or not,
    does not change what the validation of an action with another
    [actionId] answers. *)
Theorem validate_other_action (u u' : string) (a b : Action) (t t' : Z) (w : World) :
  actionId a <> actionId b ->
  (validate u b t (validate u' a t' w).2).1 = (validate u b t w).1.
Proof.
  intros Hne. rewrite !validate_returns. do 2 f_equal.
  unfold checks_at. do 3 f_equal. unfold live.
  rewrite validate_kv_other; [reflexivity |].
  intros Heq. apply action_key_inj in Heq. congruence.
Qed.

End Validation.

Lemma validate_marks_action_witness :
  let w' := (@validate demo_config "alice" demo_token 5 empty_world).2 in
  live 3600005 (action_key "a1") w' = Some (VStr "used") /\
  live 3600006 (action_key "a1") w' = None /\
  commands (@validate demo_config "alice" forged_token 5 empty_world).2
    = [EXISTS (action_key "a1")].
Proof.
  intros w'.
  destruct (@validate_marks_action demo_config "alice" demo_token 5 empty_world)
    as (Hacc & _ & _).
  destruct (@validate_marks_action demo_config "alice" forged_token 5 empty_world)
    as (_ & Hrej & _).
  destruct Hacc as (_ & Hlive & Hgone & _); [vm_compute; reflexivity |].
  destruct Hrej as (_ & _ & _ & Hcs); [vm_compute; reflexivity |].
  split; [apply Hlive; lia | split; [apply Hgone; lia | exact Hcs]].
Defined.

(** The token issued to "lice" for the action "a1a" is accepted from
    "alice" for the action "a1". *)
Lemma one_signature_two_awards_witness :
  let shifted := {| actionId := "a1a"; actionType := "COMPLETE_QUEST"; timestamp := 0;
                    signature := "s3cret|a1aliceCOMPLETE_QUEST0" |} in
  (@validate demo_config "lice" shifted 5 empty_world).1 = Return true /\
  (@validate demo_config "alice" demo_token 5
     (@validate demo_config "lice" shifted 5 empty_world).2).1 = Return true.
Proof.
  intros shifted.
  destruct (@one_signature_two_awards demo_config "a1" "a" "lice" "COMPLETE_QUEST"
              "s3cret|a1aliceCOMPLETE_QUEST0" 0 5 empty_world) as (_ & H1 & H2).
  - discriminate.
  - vm_compute. reflexivity.
  - lia.
  - reflexivity.
  - reflexivity.
  - split; [exact H1 | exact H2].
Defined.

Lemma validate_other_action_witness :
  let other := {| actionId := "a2"; actionType := "COMPLETE_QUEST"; timestamp := 0;
                  signature := "s3cret|a2aliceCOMPLETE_QUEST0" |} in
  (@validate demo_config "alice" other 6
     (@validate demo_config "alice" demo_token 5 empty_world).2).1 = Return true.
Proof.
  intros other.
  rewrite (@validate_other_action demo_config "alice" "alice" demo_token other 6 5
             empty_world); [| discriminate].
  vm_compute. reflexivity.
Defined.

End ScoreboardMore.

Module AuthMiddlewareFacts.
Import Stdlib.Strings.Ascii.
Import AuthMiddleware.

Lemma split_space_nonempty s : split_space s <> [].
Proof.
  destruct s as [| c s]; cbn; [discriminate |].
  destruct (decide (c = " "%char)); [discriminate |].
  destruct (split_space s); discriminate.
Qed.

Lemma split_space_word s : no_space s = true -> split_space s = [s].
Proof.
  induction s as [| c s IH]; intros Hs; [reflexivity |].
  cbn in Hs. apply andb_true_iff in Hs as [Hc Hs].
  apply negb_true_iff, bool_decide_eq_false in Hc.
  cbn. rewrite decide_False by exact Hc. now rewrite (IH Hs).
Qed.

Lemma split_space_first s rest :
  no_space s = true ->
  split_space (s +:+ " " +:+ rest) = s :: split_space rest.
Proof.
  induction s as [| c s IH]; intros Hs; [reflexivity |].
  cbn in Hs. apply andb_true_iff in Hs as [Hc Hs].
  apply negb_true_iff, bool_decide_eq_false in Hc.
  change (String c s +:+ " " +:+ rest) with (String c (s +:+ " " +:+ rest)).
  cbn [split_space]. rewrite decide_False by exact Hc. now rewrite (IH Hs).
Qed.

Section Middleware.
Variable Payload : Type.
Variable jwt_verify : string -> string -> option Payload.
Variable JWT_SECRET : string.

(** X21. The middleware takes as the token what stands between the first and
    the second space of the [Authorization] header.  Without the header,
    without a space in it, or with nothing after the first space, it
    answers 401 "Unauthorized"; otherwise [jwt.verify] of that piece
    decides between [next()] and 401 "Invalid token".  The scheme before
    the first space is not looked at, and what follows a second space is
    dropped. *)
Theorem authMiddleware_token (scheme token rest : string) :
  no_space scheme = true ->
  no_space token = true ->
  let verdict :=
    if decide (token = EmptyString) then respond Payload 401 "Unauthorized"
    else match jwt_verify token JWT_SECRET with
         | Some decoded => next Payload decoded
         | None => respond Payload 401 "Invalid token"
         end in
  authMiddleware Payload jwt_verify JWT_SECRET None = respond Payload 401 "Unauthorized" /\
  authMiddleware Payload jwt_verify JWT_SECRET (Some scheme)
    = respond Payload 401 "Unauthorized" /\
  authMiddleware Payload jwt_verify JWT_SECRET (Some (scheme +:+ " " +:+ token)) = verdict /\
  authMiddleware Payload jwt_verify JWT_SECRET
    (Some (scheme +:+ " " +:+ token +:+ " " +:+ rest)) = verdict.
Proof.
  intros Hs Ht verdict. unfold authMiddleware. cbn [mbind option_bind].
  split; [reflexivity |]. split; [| split].
  - now rewrite (split_space_word scheme Hs).
  - rewrite (split_space_first scheme token Hs), (split_space_word token Ht). reflexivity.
  - rewrite (split_space_first scheme _ Hs), (split_space_first token rest Ht).
    reflexivity.
Qed.

End Middleware.

Lemma authMiddleware_token_witness :
  authMiddleware string (fun t _ => if decide (t = "good") then Some "user-123" else None)
    "secret" (Some "Basic good trailing")
  = next string "user-123".
Proof.
  destruct (authMiddleware_token string
              (fun t _ => if decide (t = "good") then Some "user-123" else None)
              "secret" "Basic" "good" "trailing" eq_refl eq_refl) as (_ & _ & _ & H).
  exact H.
Defined.

End AuthMiddlewareFacts.

Module SumToNMore.
Import JSNumber.
Import SumToN.
Import SumToNFacts.

Lemma signed_opp (n : Z) (c : completion) :
  n <> 0 -> signed (- n) c = opposite (signed n c).
Proof.
  intros Hn. destruct c; cbn; [| reflexivity ..].
  destruct (Z.ltb_spec (- n) 0), (Z.ltb_spec n 0); try lia; f_equal; lia.
Qed.

(** X22. Each implementation is odd: the call on [-n] ends as the call on
    [n] does, with the opposite value when it returns.  For
    [1 <= n <= 2^27] each satisfies [sum_to_n(n) = sum_to_n(n - 1) + n]
    (C when the stack has more than [n] frames left), and the value is
    positive for [n] and negative for [-n].  At [n = 2^27 + 2] the identity
    no longer holds for A. *)
Theorem sum_to_n_odd_and_step (frames : nat) (n : Z) :
  (sum_to_n_a (- n) = - sum_to_n_a n /\
   sum_to_n_b (- n) = opposite (sum_to_n_b n) /\
   sum_to_n_c frames (- n) = opposite (sum_to_n_c frames n)) /\
  (1 <= n <= 2 ^ 27 ->
   sum_to_n_a n = sum_to_n_a (n - 1) + n /\
   sum_to_n_b n = Returns (sum_to_n_a (n - 1) + n) /\
   (n < Z.of_nat frames -> sum_to_n_c frames n = Returns (sum_to_n_a (n - 1) + n)) /\
   0 < sum_to_n_a n /\ sum_to_n_a (- n) < 0) /\
  sum_to_n_a 134217730 <> round53 (sum_to_n_a 134217729 + 134217730).
Proof.
  split; [| split].
  - destruct (Z.eq_dec n 0) as [-> | Hn].
    { split; [reflexivity | split; [reflexivity |]].
      destruct frames; reflexivity. }
    split; [| split].
    + unfold sum_to_n_a. cbv zeta. rewrite Z.abs_opp.
      destruct (Z.ltb_spec (- n) 0), (Z.ltb_spec n 0); lia.
    + unfold sum_to_n_b. cbv zeta. rewrite Z.abs_opp. now apply signed_opp.
    + rewrite (sum_to_n_c_abs frames (- n)), (sum_to_n_c_abs frames n), Z.abs_opp.
      now apply signed_opp.
  - intros Hn.
    assert (H1 : Z.abs n <= 2 ^ 27) by lia.
    assert (H2 : Z.abs (n - 1) <= 2 ^ 27) by lia.
    assert (H3 : Z.abs (- n) <= 2 ^ 27) by lia.
    rewrite (sum_to_n_a_gauss n H1), (sum_to_n_a_gauss (n - 1) H2),
      (sum_to_n_a_gauss (- n) H3), (sum_to_n_b_gauss n H1).
    rewrite <- gauss_step by lia.
    assert (Hpos : 0 < gauss n).
    { rewrite gauss_nonneg by lia. pose proof (twice_triangle n). nia. }
    split; [reflexivity | split; [reflexivity | split; [| split; [exact Hpos |]]]].
    + intros Hf. apply sum_to_n_c_gauss; lia.
    + rewrite (gauss_signed (- n)), Z.abs_opp, Z.abs_eq by lia.
      destruct (Z.ltb_spec (- n) 0); lia.
  - vm_compute. discriminate.
Qed.

Lemma sum_to_n_odd_and_step_witness :
  sum_to_n_b 5 = Returns (sum_to_n_a 4 + 5) /\ sum_to_n_a (- 5) < 0.
Proof.
  destruct (sum_to_n_odd_and_step 0 5) as (_ & H & _).
  destruct H as (_ & Hb & _ & _ & Hneg); [vm_compute; split; discriminate |].
  split; [exact Hb | exact Hneg].
Defined.

End SumToNMore.
